(** * The duplex audio session of App.tsx

    A shallow embedding of the session logic of the [App] component:
    the capture callback, the four transport callbacks, the playback
    scheduler, the transcript accumulators, connect and disconnect.

    The component keeps its data in React state ([useState]) and in
    mutable refs ([useRef]); the browser owns the media stream, the two
    audio contexts, the script processor, the session promise and the
    buffer source nodes.  Both are fields of one [State] record, and
    every callback of the source is a function on that record.  Browser
    objects live in lists indexed by allocation order, refs hold indices,
    so that an object that is no longer referenced (a promise after
    [disconnect], a processor after a remote close) is still there.

    Times are natural numbers of output sample frames (the output context
    runs at 24 kHz, so [ctx.currentTime] and [audioBuffer.duration] are
    both whole numbers of frames divided by 24000); rounding of the
    JavaScript doubles is not modelled. *)

From Stdlib Require Import String Ascii NArith List Lia.
From stdpp Require Import base option list gmap sets strings.

Open Scope string_scope.
Open Scope N_scope.
Open Scope list_scope.

(** ** Data model *)

Inductive ConnectionState := disconnected | connecting | connected | error.

Inductive Sender := user | agent | system.

(** [LogMessage]: the [id] (a random string) and the [timestamp] (the wall
    clock) are drawn from the host at creation and read by nothing in the
    session logic; the record keeps the two fields that are. *)
Record LogMessage := { sender : Sender; text : string }.

(** The encoded chunk that [createBlob] (utils/audioUtils) makes of the
    channel data of one capture event; a chunk is identified by the number
    of the capture event it comes from. *)
Definition Blob := nat.

(** [MediaStreamTrack.readyState]. *)
Inductive ReadyState := live | ended.

(** [AudioContext.state]; a suspended context is resumed when created. *)
Inductive ContextState := running | closed.

(** The script processor and the [onaudioprocess] closure registered on it
    by [initializeAudio].  The closure refers to [isMuted], a [const] of
    the render in which [connectToGemini] was invoked, so it carries the
    value that binding had. *)
Record ScriptProcessor := { proc_context : nat; proc_isMuted : bool }.

(** The promise returned by [ai.live.connect].  While pending it holds the
    reactions registered with [then]; each reaction of the source sends one
    blob, so a reaction is that blob.  Once fulfilled, [sendRealtimeInput]
    of the session either works or throws. *)
Inductive PromiseState :=
  | pending (reactions : list Blob)
  | fulfilled (sendThrows : bool)
  | rejected.

(** An [AudioBufferSourceNode]: the time given to [start], the duration of
    its buffer, and whether [stop] was called on it. *)
Record SourceNode := { when : N; duration : N; stopped : bool }.

Record State := MkState {
  (* React state *)
  connectionState : ConnectionState;
  logs : list LogMessage;
  isMuted : bool;
  (* refs *)
  inputAudioContextRef : option nat;
  outputAudioContextRef : option nat;
  inputAnalyserRef : option nat;
  outputAnalyserRef : option nat;
  nextStartTimeRef : N;
  sourcesRef : gset nat;
  sessionPromiseRef : option nat;
  currentInputTranscriptionRef : string;
  currentOutputTranscriptionRef : string;
  streamRef : option nat;
  (* browser objects *)
  streams : list (list ReadyState);
  contexts : list ContextState;
  processors : list ScriptProcessor;
  promises : list PromiseState;
  nodes : list SourceNode;
  (* traces: calls of [sendRealtimeInput] (promise, blob), console lines *)
  sent : list (nat * Blob);
  console : list string
}.

(** The component as first rendered. *)
Definition initial : State :=
  MkState disconnected [] false None None None None 0 ∅ None "" "" None
    [] [] [] [] [] [] [].

(** *** Field updates *)

Definition set_connectionState (v : ConnectionState) (s : State) : State :=
  MkState v (logs s) (isMuted s) (inputAudioContextRef s)
    (outputAudioContextRef s) (inputAnalyserRef s) (outputAnalyserRef s)
    (nextStartTimeRef s) (sourcesRef s) (sessionPromiseRef s)
    (currentInputTranscriptionRef s) (currentOutputTranscriptionRef s)
    (streamRef s) (streams s) (contexts s) (processors s) (promises s)
    (nodes s) (sent s) (console s).

Definition set_logs (v : list LogMessage) (s : State) : State :=
  MkState (connectionState s) v (isMuted s) (inputAudioContextRef s)
    (outputAudioContextRef s) (inputAnalyserRef s) (outputAnalyserRef s)
    (nextStartTimeRef s) (sourcesRef s) (sessionPromiseRef s)
    (currentInputTranscriptionRef s) (currentOutputTranscriptionRef s)
    (streamRef s) (streams s) (contexts s) (processors s) (promises s)
    (nodes s) (sent s) (console s).

Definition set_isMuted (v : bool) (s : State) : State :=
  MkState (connectionState s) (logs s) v (inputAudioContextRef s)
    (outputAudioContextRef s) (inputAnalyserRef s) (outputAnalyserRef s)
    (nextStartTimeRef s) (sourcesRef s) (sessionPromiseRef s)
    (currentInputTranscriptionRef s) (currentOutputTranscriptionRef s)
    (streamRef s) (streams s) (contexts s) (processors s) (promises s)
    (nodes s) (sent s) (console s).

Definition set_inputAudioContextRef (v : option nat) (s : State) : State :=
  MkState (connectionState s) (logs s) (isMuted s) v (outputAudioContextRef s)
    (inputAnalyserRef s) (outputAnalyserRef s) (nextStartTimeRef s)
    (sourcesRef s) (sessionPromiseRef s) (currentInputTranscriptionRef s)
    (currentOutputTranscriptionRef s) (streamRef s) (streams s) (contexts s)
    (processors s) (promises s) (nodes s) (sent s) (console s).

Definition set_outputAudioContextRef (v : option nat) (s : State) : State :=
  MkState (connectionState s) (logs s) (isMuted s) (inputAudioContextRef s) v
    (inputAnalyserRef s) (outputAnalyserRef s) (nextStartTimeRef s)
    (sourcesRef s) (sessionPromiseRef s) (currentInputTranscriptionRef s)
    (currentOutputTranscriptionRef s) (streamRef s) (streams s) (contexts s)
    (processors s) (promises s) (nodes s) (sent s) (console s).

Definition set_inputAnalyserRef (v : option nat) (s : State) : State :=
  MkState (connectionState s) (logs s) (isMuted s) (inputAudioContextRef s)
    (outputAudioContextRef s) v (outputAnalyserRef s) (nextStartTimeRef s)
    (sourcesRef s) (sessionPromiseRef s) (currentInputTranscriptionRef s)
    (currentOutputTranscriptionRef s) (streamRef s) (streams s) (contexts s)
    (processors s) (promises s) (nodes s) (sent s) (console s).

Definition set_outputAnalyserRef (v : option nat) (s : State) : State :=
  MkState (connectionState s) (logs s) (isMuted s) (inputAudioContextRef s)
    (outputAudioContextRef s) (inputAnalyserRef s) v (nextStartTimeRef s)
    (sourcesRef s) (sessionPromiseRef s) (currentInputTranscriptionRef s)
    (currentOutputTranscriptionRef s) (streamRef s) (streams s) (contexts s)
    (processors s) (promises s) (nodes s) (sent s) (console s).

Definition set_nextStartTimeRef (v : N) (s : State) : State :=
  MkState (connectionState s) (logs s) (isMuted s) (inputAudioContextRef s)
    (outputAudioContextRef s) (inputAnalyserRef s) (outputAnalyserRef s) v
    (sourcesRef s) (sessionPromiseRef s) (currentInputTranscriptionRef s)
    (currentOutputTranscriptionRef s) (streamRef s) (streams s) (contexts s)
    (processors s) (promises s) (nodes s) (sent s) (console s).

Definition set_sourcesRef (v : gset nat) (s : State) : State :=
  MkState (connectionState s) (logs s) (isMuted s) (inputAudioContextRef s)
    (outputAudioContextRef s) (inputAnalyserRef s) (outputAnalyserRef s)
    (nextStartTimeRef s) v (sessionPromiseRef s)
    (currentInputTranscriptionRef s) (currentOutputTranscriptionRef s)
    (streamRef s) (streams s) (contexts s) (processors s) (promises s)
    (nodes s) (sent s) (console s).

Definition set_sessionPromiseRef (v : option nat) (s : State) : State :=
  MkState (connectionState s) (logs s) (isMuted s) (inputAudioContextRef s)
    (outputAudioContextRef s) (inputAnalyserRef s) (outputAnalyserRef s)
    (nextStartTimeRef s) (sourcesRef s) v (currentInputTranscriptionRef s)
    (currentOutputTranscriptionRef s) (streamRef s) (streams s) (contexts s)
    (processors s) (promises s) (nodes s) (sent s) (console s).

Definition set_currentInputTranscriptionRef (v : string) (s : State) : State :=
  MkState (connectionState s) (logs s) (isMuted s) (inputAudioContextRef s)
    (outputAudioContextRef s) (inputAnalyserRef s) (outputAnalyserRef s)
    (nextStartTimeRef s) (sourcesRef s) (sessionPromiseRef s) v
    (currentOutputTranscriptionRef s) (streamRef s) (streams s) (contexts s)
    (processors s) (promises s) (nodes s) (sent s) (console s).

Definition set_currentOutputTranscriptionRef (v : string) (s : State) : State :=
  MkState (connectionState s) (logs s) (isMuted s) (inputAudioContextRef s)
    (outputAudioContextRef s) (inputAnalyserRef s) (outputAnalyserRef s)
    (nextStartTimeRef s) (sourcesRef s) (sessionPromiseRef s)
    (currentInputTranscriptionRef s) v (streamRef s) (streams s) (contexts s)
    (processors s) (promises s) (nodes s) (sent s) (console s).

Definition set_streamRef (v : option nat) (s : State) : State :=
  MkState (connectionState s) (logs s) (isMuted s) (inputAudioContextRef s)
    (outputAudioContextRef s) (inputAnalyserRef s) (outputAnalyserRef s)
    (nextStartTimeRef s) (sourcesRef s) (sessionPromiseRef s)
    (currentInputTranscriptionRef s) (currentOutputTranscriptionRef s) v
    (streams s) (contexts s) (processors s) (promises s) (nodes s) (sent s)
    (console s).

Definition set_streams (v : list (list ReadyState)) (s : State) : State :=
  MkState (connectionState s) (logs s) (isMuted s) (inputAudioContextRef s)
    (outputAudioContextRef s) (inputAnalyserRef s) (outputAnalyserRef s)
    (nextStartTimeRef s) (sourcesRef s) (sessionPromiseRef s)
    (currentInputTranscriptionRef s) (currentOutputTranscriptionRef s)
    (streamRef s) v (contexts s) (processors s) (promises s) (nodes s)
    (sent s) (console s).

Definition set_contexts (v : list ContextState) (s : State) : State :=
  MkState (connectionState s) (logs s) (isMuted s) (inputAudioContextRef s)
    (outputAudioContextRef s) (inputAnalyserRef s) (outputAnalyserRef s)
    (nextStartTimeRef s) (sourcesRef s) (sessionPromiseRef s)
    (currentInputTranscriptionRef s) (currentOutputTranscriptionRef s)
    (streamRef s) (streams s) v (processors s) (promises s) (nodes s) (sent s)
    (console s).

Definition set_processors (v : list ScriptProcessor) (s : State) : State :=
  MkState (connectionState s) (logs s) (isMuted s) (inputAudioContextRef s)
    (outputAudioContextRef s) (inputAnalyserRef s) (outputAnalyserRef s)
    (nextStartTimeRef s) (sourcesRef s) (sessionPromiseRef s)
    (currentInputTranscriptionRef s) (currentOutputTranscriptionRef s)
    (streamRef s) (streams s) (contexts s) v (promises s) (nodes s) (sent s)
    (console s).

Definition set_promises (v : list PromiseState) (s : State) : State :=
  MkState (connectionState s) (logs s) (isMuted s) (inputAudioContextRef s)
    (outputAudioContextRef s) (inputAnalyserRef s) (outputAnalyserRef s)
    (nextStartTimeRef s) (sourcesRef s) (sessionPromiseRef s)
    (currentInputTranscriptionRef s) (currentOutputTranscriptionRef s)
    (streamRef s) (streams s) (contexts s) (processors s) v (nodes s) (sent s)
    (console s).

Definition set_nodes (v : list SourceNode) (s : State) : State :=
  MkState (connectionState s) (logs s) (isMuted s) (inputAudioContextRef s)
    (outputAudioContextRef s) (inputAnalyserRef s) (outputAnalyserRef s)
    (nextStartTimeRef s) (sourcesRef s) (sessionPromiseRef s)
    (currentInputTranscriptionRef s) (currentOutputTranscriptionRef s)
    (streamRef s) (streams s) (contexts s) (processors s) (promises s) v
    (sent s) (console s).

Definition set_sent (v : list (nat * Blob)) (s : State) : State :=
  MkState (connectionState s) (logs s) (isMuted s) (inputAudioContextRef s)
    (outputAudioContextRef s) (inputAnalyserRef s) (outputAnalyserRef s)
    (nextStartTimeRef s) (sourcesRef s) (sessionPromiseRef s)
    (currentInputTranscriptionRef s) (currentOutputTranscriptionRef s)
    (streamRef s) (streams s) (contexts s) (processors s) (promises s)
    (nodes s) v (console s).

Definition set_console (v : list string) (s : State) : State :=
  MkState (connectionState s) (logs s) (isMuted s) (inputAudioContextRef s)
    (outputAudioContextRef s) (inputAnalyserRef s) (outputAnalyserRef s)
    (nextStartTimeRef s) (sourcesRef s) (sessionPromiseRef s)
    (currentInputTranscriptionRef s) (currentOutputTranscriptionRef s)
    (streamRef s) (streams s) (contexts s) (processors s) (promises s)
    (nodes s) (sent s) v.

(** ** Inbound messages

    [LiveServerMessage], flattened: a message without [serverContent] is
    one whose fields are all absent. *)

(** Modelled from the spec: [decode] and [decodeAudioData] are in
    utils/audioUtils, not in App.tsx.  The spec gives the decoder two
    outcomes, a sample buffer or a [DecodeError]; a non-empty base64
    payload is represented by the outcome of decoding it. *)
Inductive Decoded := AudioBuffer (frames : N) | DecodeError.

(** A part of a model turn: [inlineData?.data], [None] when it is missing
    or the empty string (both falsy). *)
Definition Part := option Decoded.

(** [parts] is optional in the SDK's [Content] type. *)
Record ModelTurn := { parts : option (list Part) }.

Record LiveServerMessage := {
  outputTranscription : option string;
  inputTranscription : option string;
  turnComplete : bool;
  modelTurn : option ModelTurn;
  interrupted : bool
}.

(** How a callback ends: it returns, or an exception leaves it (for the
    [async] [onmessage]: the promise it returned is rejected).  Whatever
    it wrote before is kept. *)
Inductive Completion := Returned | Threw.

(** ** The component's functions *)

(** JavaScript truthiness of a string. *)
Definition truthy (t : string) : bool :=
  match t with EmptyString => false | _ => true end.

Definition addLog (who : Sender) (t : string) (s : State) : State :=
  set_logs (logs s ++ [{| sender := who; text := t |}]) s.

Definition log_console (line : string) (s : State) : State :=
  set_console (console s ++ [line]) s.

(** *** The send reaction and the capture callback *)

(** The reaction passed to [then]: [session.sendRealtimeInput] inside
    [try]/[catch]. *)
Definition sendRealtimeInput (pid : nat) (sendThrows : bool) (blob : Blob)
    (s : State) : State :=
  let s1 := set_sent (sent s ++ [(pid, blob)]) s in
  if sendThrows then log_console "Error sending input:" s1 else s1.

(** [scriptProcessor.onaudioprocess].  A reaction on a settled promise runs
    as soon as the callback returns; on a pending promise it is kept by the
    promise. *)
Definition onaudioprocess (p : ScriptProcessor) (blob : Blob) (s : State)
    : State :=
  if proc_isMuted p then s
  else
    match sessionPromiseRef s with
    | None => s
    | Some pid =>
        match promises s !! pid with
        | Some (pending q) =>
            set_promises (<[pid := pending (q ++ [blob])]> (promises s)) s
        | Some (fulfilled t) => sendRealtimeInput pid t blob s
        | Some rejected => log_console "Session not ready or failed:" s
        | None => s
        end
    end.

(** The host settles the promise of [ai.live.connect]: the reactions run in
    the order in which they were registered. *)
Definition resolveSession (pid : nat) (sendThrows : bool) (s : State)
    : State :=
  match promises s !! pid with
  | Some (pending q) =>
      foldl (fun st blob => sendRealtimeInput pid sendThrows blob st)
        (set_promises (<[pid := fulfilled sendThrows]> (promises s)) s) q
  | _ => s
  end.

Definition rejectSession (pid : nat) (s : State) : State :=
  match promises s !! pid with
  | Some (pending q) =>
      foldl (fun st _ => log_console "Session not ready or failed:" st)
        (set_promises (<[pid := rejected]> (promises s)) s) q
  | _ => s
  end.

(** *** initializeAudio

    [mic] is what [getUserMedia] gives: [Some n], a stream of [n] tracks,
    or [None], a rejection (no device, permission denied). *)
Definition initializeAudio (mic : option nat) (s : State) : State :=
  match mic with
  | Some n =>
      let sid := length (streams s) in
      let inCtx := length (contexts s) in
      let outCtx := S inCtx in
      let s := set_streams (streams s ++ [replicate n live]) s in
      let s := set_streamRef (Some sid) s in
      let s := set_contexts (contexts s ++ [running]) s in
      let s := set_inputAudioContextRef (Some inCtx) s in
      let s := set_inputAnalyserRef (Some inCtx) s in
      let s :=
        set_processors
          (processors s ++
           [{| proc_context := inCtx; proc_isMuted := isMuted s |}]) s in
      let s := set_contexts (contexts s ++ [running]) s in
      let s := set_outputAudioContextRef (Some outCtx) s in
      set_outputAnalyserRef (Some outCtx) s
  | None =>
      let s := log_console "Audio initialization failed" s in
      let s := set_connectionState error s in
      addLog system "Mikrofon hatası. Lütfen izinleri kontrol edin." s
  end.

(** *** The transport callbacks *)

(** [onopen]; [callerName] is the binding the closure was created with. *)
Definition onopen (callerName : string) (s : State) : State :=
  let s := set_connectionState connected s in
  let s := addLog system "Hızlı Bağlantı Kuruldu (Ultra Low Latency)." s in
  if truthy callerName
  then addLog agent ("TechCorp, ben Aslı. Merhaba " +:+ callerName +:+ "...") s
  else addLog agent "TechCorp, ben Aslı, size nasıl yardımcı olabilirim?" s.

(** // Handle Transcription *)
Definition handleTranscription (m : LiveServerMessage) (s : State) : State :=
  match outputTranscription m with
  | Some t =>
      set_currentOutputTranscriptionRef
        (currentOutputTranscriptionRef s +:+ t) s
  | None =>
      match inputTranscription m with
      | Some t =>
          set_currentInputTranscriptionRef
            (currentInputTranscriptionRef s +:+ t) s
      | None => s
      end
  end.

(** [if (message.serverContent?.turnComplete) ...] *)
Definition handleTurnComplete (m : LiveServerMessage) (s : State) : State :=
  if turnComplete m then
    let s :=
      if truthy (currentInputTranscriptionRef s)
      then set_currentInputTranscriptionRef ""
             (addLog user (currentInputTranscriptionRef s) s)
      else s in
    if truthy (currentOutputTranscriptionRef s)
    then set_currentOutputTranscriptionRef ""
           (addLog agent (currentOutputTranscriptionRef s) s)
    else s
  else s.

(** [message.serverContent?.modelTurn?.parts[0]?.inlineData?.data]: a model
    turn without [parts] makes the index throw a [TypeError]; an empty
    [parts] gives [undefined]. *)
Definition base64Audio (m : LiveServerMessage) : option Part :=
  match modelTurn m with
  | None => Some None
  | Some mt =>
      match parts mt with
      | None => None
      | Some ps => Some (mjoin (head ps))
      end
  end.

(** // Handle Audio Output.  [now] is [ctx.currentTime]. *)
Definition handleAudio (now : N) (m : LiveServerMessage) (s : State)
    : State * Completion :=
  match base64Audio m with
  | None => (s, Threw)
  | Some None => (s, Returned)
  | Some (Some payload) =>
      match outputAudioContextRef s, outputAnalyserRef s with
      | Some _, Some _ =>
          let s := set_nextStartTimeRef (N.max (nextStartTimeRef s) now) s in
          match payload with
          | DecodeError => (s, Threw)
          | AudioBuffer d =>
              let source := length (nodes s) in
              let s :=
                set_nodes
                  (nodes s ++
                   [{| when := nextStartTimeRef s; duration := d;
                       stopped := false |}]) s in
              let s := set_nextStartTimeRef (nextStartTimeRef s + d) s in
              (set_sourcesRef (sourcesRef s ∪ {[source]}) s, Returned)
          end
      | _, _ => (s, Returned)
      end
  end.

(** [source.stop()]. *)
Definition stop (n : SourceNode) : SourceNode :=
  {| when := when n; duration := duration n; stopped := true |}.

(** // Handle Interruptions *)
Definition handleInterruption (m : LiveServerMessage) (s : State) : State :=
  if interrupted m then
    let s := log_console "Interruption detected - clearing audio queue" s in
    let s :=
      set_nodes
        (foldr (fun source ns => alter stop source ns) (nodes s)
           (elements (sourcesRef s))) s in
    let s := set_sourcesRef ∅ s in
    set_nextStartTimeRef 0 s
  else s.

(** [onmessage].  The handler is [async] and awaits [decodeAudioData] in
    the audio block; it is taken to run to its end before the next event
    is handled. *)
Definition onmessage (now : N) (m : LiveServerMessage) (s : State)
    : State * Completion :=
  let s := handleTranscription m s in
  let s := handleTurnComplete m s in
  match handleAudio now m s with
  | (s, Threw) => (s, Threw)
  | (s, Returned) => (handleInterruption m s, Returned)
  end.

(** The ['ended'] listener of a source. *)
Definition onended (source : nat) (s : State) : State :=
  set_sourcesRef (sourcesRef s ∖ {[source]}) s.

Definition onclose (s : State) : State :=
  let s := log_console "Session closed from server" s in
  let s := set_connectionState disconnected s in
  addLog system "Bağlantı kesildi." s.

Definition onerror (s : State) : State :=
  let s := log_console "Session error:" s in
  let s := set_connectionState error s in
  addLog system "Bağlantı hatası oluştu." s.

(** *** connectToGemini

    [API_KEY] is the module constant [process.env.API_KEY].  The host's
    part in the call: [mic], as in [initializeAudio], and [connectThrows],
    the text of the exception if [ai.live.connect] throws, [None] if it
    returns its promise.  The system instruction and the voice name that
    the function composes go to the transport and touch no state. *)
Definition hasKey (API_KEY : option string) : bool :=
  match API_KEY with Some k => truthy k | None => false end.

Definition connectToGemini (API_KEY : option string) (mic : option nat)
    (connectThrows : option string) (s : State) : State :=
  if negb (hasKey API_KEY) then
    addLog system "API Key eksik. Lütfen metadata/env kontrol edin." s
  else
    let s := set_connectionState connecting s in
    let s := initializeAudio mic s in
    match connectThrows with
    | None =>
        let sessionPromise := length (promises s) in
        let s := set_promises (promises s ++ [pending []]) s in
        set_sessionPromiseRef (Some sessionPromise) s
    | Some err =>
        let s := log_console "Connection failed" s in
        let s := set_connectionState error s in
        addLog system ("Bağlantı başlatılamadı: " +:+ err) s
    end.

(** *** disconnect *)

(** [track.stop()]: the track ends; on a track that has ended already the
    call does nothing. *)
Definition stopTrack (r : ReadyState) : ReadyState :=
  match r with live => ended | ended => ended end.

Definition disconnect (s : State) : State :=
  let s := set_sessionPromiseRef None s in
  let s :=
    match streamRef s with
    | Some stream => set_streams (alter (fmap stopTrack) stream (streams s)) s
    | None => s
    end in
  let s :=
    match inputAudioContextRef s with
    | Some ctx =>
        set_inputAudioContextRef None
          (set_contexts (<[ctx := closed]> (contexts s)) s)
    | None => s
    end in
  let s :=
    match outputAudioContextRef s with
    | Some ctx =>
        set_outputAudioContextRef None
          (set_contexts (<[ctx := closed]> (contexts s)) s)
    | None => s
    end in
  let s := set_connectionState disconnected s in
  let s := set_logs [] s in
  let s := set_currentInputTranscriptionRef "" s in
  let s := set_currentOutputTranscriptionRef "" s in
  let s := set_nextStartTimeRef 0 s in
  set_sourcesRef ∅ s.

(** ** Events

    Everything that can happen to the component: the two buttons, a change
    of the mute state through [setIsMuted], the four transport callbacks,
    the settling of the session promise, a capture period of a script
    processor, the end of a source. *)
Inductive Event :=
  | ConnectRequest (mic : option nat) (connectThrows : option string)
  | DisconnectRequest
  | SetIsMuted (muted : bool)
  | Open (callerName : string)
  | Message (now : N) (m : LiveServerMessage)
  | Close
  | Error
  | SessionResolved (pid : nat) (sendThrows : bool)
  | SessionRejected (pid : nat)
  | AudioProcess (proc : nat) (blob : Blob)
  | Ended (source : nat).

(** A script processor fires as long as its context runs. *)
Definition fires (p : ScriptProcessor) (s : State) : bool :=
  match contexts s !! proc_context p with
  | Some running => true
  | _ => false
  end.

(** The transport callbacks exist once [ai.live.connect] has been called. *)
Definition transportOpened (s : State) : bool :=
  match promises s with [] => false | _ => true end.

Definition step (API_KEY : option string) (s : State) (e : Event) : State :=
  match e with
  | ConnectRequest mic connectThrows =>
      connectToGemini API_KEY mic connectThrows s
  | DisconnectRequest => disconnect s
  | SetIsMuted muted => set_isMuted muted s
  | Open callerName => if transportOpened s then onopen callerName s else s
  | Message now m =>
      if transportOpened s then fst (onmessage now m s) else s
  | Close => if transportOpened s then onclose s else s
  | Error => if transportOpened s then onerror s else s
  | SessionResolved pid sendThrows => resolveSession pid sendThrows s
  | SessionRejected pid => rejectSession pid s
  | AudioProcess proc blob =>
      match processors s !! proc with
      | Some p => if fires p s then onaudioprocess p blob s else s
      | None => s
      end
  | Ended source => onended source s
  end.

Definition run (API_KEY : option string) (s : State) (es : list Event)
    : State :=
  foldl (step API_KEY) s es.

(** The chunks handed to [sendRealtimeInput] so far. *)
Definition sentBlobs (s : State) : list Blob := snd <$> sent s.

(** The message shapes the scenarios use. *)
Definition audioMessage (payload : Decoded) : LiveServerMessage :=
  {| outputTranscription := None; inputTranscription := None;
     turnComplete := false;
     modelTurn := Some {| parts := Some [Some payload] |};
     interrupted := false |}.

Definition interruptedMessage (mt : option ModelTurn) : LiveServerMessage :=
  {| outputTranscription := None; inputTranscription := None;
     turnComplete := false; modelTurn := mt; interrupted := true |}.

(** A session that was set up without failure: key present, microphone
    with one track, promise returned. *)
Definition dialled : State :=
  connectToGemini (Some "key") (Some 1%nat) None initial.

(** ** Vocabulary of the statements *)

(** The log entry a turn boundary makes of an accumulator. *)
Definition entry (who : Sender) (acc : string) : list LogMessage :=
  if decide (acc = "") then [] else [{| sender := who; text := acc |}].

(** The duration of the buffer that the audio block makes of a message,
    if it makes one. *)
Definition decodedFrames (m : LiveServerMessage) : option N :=
  match base64Audio m with
  | Some (Some (AudioBuffer d)) => Some d
  | _ => None
  end.

(** Messages delivered one after the other, each with the value of
    [ctx.currentTime] at its arrival. *)
Definition receive (s : State) (arrivals : list (N * LiveServerMessage))
    : State :=
  foldl (fun st a => (onmessage a.1 a.2 st).1) s arrivals.

(** What the spec asks of the scheduler: a fragment starts at the later of
    the clock and the end of the fragment before it. *)
Fixpoint schedule (next : N) (arrivals : list (N * LiveServerMessage))
    : list SourceNode :=
  match arrivals with
  | [] => []
  | (now, m) :: rest =>
      let start := N.max now next in
      let d := default 0 (decodedFrames m) in
      {| when := start; duration := d; stopped := false |}
        :: schedule (start + d) rest
  end.

Definition playable (s : State) : Prop :=
  is_Some (outputAudioContextRef s) ∧ is_Some (outputAnalyserRef s).

Definition uninterrupted (a : N * LiveServerMessage) : Prop :=
  is_Some (decodedFrames a.2) ∧ interrupted a.2 = false.

(** The message without its model turn. *)
Definition withoutAudio (m : LiveServerMessage) : LiveServerMessage :=
  {| outputTranscription := outputTranscription m;
     inputTranscription := inputTranscription m;
     turnComplete := turnComplete m; modelTurn := None;
     interrupted := interrupted m |}.

(** What holds of the component as long as no call got past the key
    check. *)
Definition idle (s : State) : Prop :=
  connectionState s = disconnected
  ∧ streams s = [] ∧ contexts s = [] ∧ processors s = [] ∧ promises s = []
  ∧ streamRef s = None ∧ inputAudioContextRef s = None
  ∧ outputAudioContextRef s = None ∧ sessionPromiseRef s = None.

(** ** Well-formed states *)

(** What the refs hold exists: the stream and the session promise are
    there, a context held by a ref runs, and a source in the set is a node
    on which [stop] was not called. *)
Definition refsValid (s : State) : Prop :=
  (∀ i, streamRef s = Some i → (i < length (streams s))%nat)
  ∧ (∀ c, inputAudioContextRef s = Some c → contexts s !! c = Some running)
  ∧ (∀ c, outputAudioContextRef s = Some c → contexts s !! c = Some running)
  ∧ (∀ p, sessionPromiseRef s = Some p → (p < length (promises s))%nat)
  ∧ (∀ source, source ∈ sourcesRef s →
       ∃ n, nodes s !! source = Some n ∧ stopped n = false).

(** The text that a run of messages adds to each accumulator: the outbound
    fragment of a message if it has one, else its inbound fragment. *)
Fixpoint outboundText (ms : list LiveServerMessage) : string :=
  match ms with
  | [] => ""
  | m :: rest => default "" (outputTranscription m) +:+ outboundText rest
  end.

Fixpoint inboundText (ms : list LiveServerMessage) : string :=
  match ms with
  | [] => ""
  | m :: rest =>
      match outputTranscription m with
      | Some _ => ""
      | None => default "" (inputTranscription m)
      end +:+ inboundText rest
  end.

(** Events that are not [setIsMuted]. *)
Definition keepsMute (e : Event) : Prop :=
  match e with SetIsMuted _ => False | _ => True end.

(** ** The configuration sent with the call

    What [connectToGemini] composes between the key check and
    [ai.live.connect]: the system instruction and the voice name. *)

(** The double quote character of the templates. *)
Definition dq : string := String "034"%char EmptyString.

(** [a || b] on strings. *)
Definition orElse (a b : string) : string := if truthy a then a else b.

Definition taskInstruction (callerName callReason : string) : string :=
  if truthy callerName || truthy callReason then
    "
        BAĞLAM:
        Arayan: " +:+
    dq +:+
    orElse callerName "Bilinmiyor" +:+
    dq +:+
    "
        Konu: " +:+
    dq +:+
    orElse callReason "Belirtilmedi" +:+
    dq +:+
    "
        
        GÖREV:
        Telefonu açar açmaz bu bilgileri doğrula. 
        Örnek: " +:+
    dq +:+
    "TechCorp, ben Aslı. Merhaba " +:+
    callerName +:+
    ", " +:+
    callReason +:+
    " için mi aramıştınız?" +:+
    dq +:+
    "
        Sonra ilgili birime aktar.
        "
  else
    "
        GÖREV:
        Telefonu " +:+
    dq +:+
    "TechCorp, ben Aslı, size nasıl yardımcı olabilirim?" +:+
    dq +:+
    " diye aç.
        İsim ve neden sor, sonra aktar.
        ".

(** [sipConfig]. *)
Record SipConfig := {
  server : string; port : string; username : string; password : string
}.

(** The [useState] default of [sipConfig]. *)
Definition defaultSipConfig : SipConfig :=
  {| server := ""; port := "5060"; username := ""; password := "" |}.

Definition sipContext (cfg : SipConfig) : string :=
  if truthy (server cfg) then
    "
[SİSTEM BİLGİSİ: Şu an SIP Trunk üzerinden konuşuyorsun. Server: " +:+
    server cfg +:+
    "]"
  else "".

Definition finalSystemInstruction (baseSystemInstruction callerName
    callReason : string) (cfg : SipConfig) : string :=
  baseSystemInstruction +:+ taskInstruction callerName callReason
    +:+ sipContext cfg.

(** ** Voice selection and the cloning mock *)

Module Voice.

Inductive VoiceOption := Puck | Charon | Kore | Fenrir | Zephyr | Cloned.

Record VoiceCard := {
  id : VoiceOption; name : string; gender : string; desc : string
}.

Definition VOICES : list VoiceCard :=
  [ {| id := Kore; name := "Kore"; gender := "Kadın";
       desc := "Dengeli ve Sakin" |};
    {| id := Zephyr; name := "Zephyr"; gender := "Kadın";
       desc := "Yumuşak ve Yardımsever" |};
    {| id := Puck; name := "Puck"; gender := "Erkek";
       desc := "Enerjik ve Net" |};
    {| id := Fenrir; name := "Fenrir"; gender := "Erkek";
       desc := "Güçlü ve Otoriter" |} ].

Inductive CloningState := idle | recording | processing | success.

(** The two callbacks that [handleVoiceCloning] hands to [setTimeout]. *)
Inductive Timer := afterRecording | afterProcessing.

(** The voice part of the React state, and the timers that are pending,
    each with the time in milliseconds at which it is due. *)
Record Settings := MkSettings {
  selectedVoice : VoiceOption;
  cloningState : CloningState;
  hasClonedVoice : bool;
  timers : list (N * Timer)
}.

Definition initialSettings : Settings := MkSettings Kore idle false [].

(** [const apiVoiceName = selectedVoice === 'Cloned' ? 'Fenrir' :
    selectedVoice]. *)
Definition apiVoiceName (v : VoiceOption) : VoiceOption :=
  match v with Cloned => Fenrir | _ => v end.

(** [handleVoiceCloning], called at [now]. *)
Definition handleVoiceCloning (now : N) (st : Settings) : Settings :=
  MkSettings (selectedVoice st) recording (hasClonedVoice st)
    (timers st ++ [(now + 3000, afterRecording)]).

(** A timer callback, run at [now]. *)
Definition fire (t : Timer) (now : N) (st : Settings) : Settings :=
  match t with
  | afterRecording =>
      MkSettings (selectedVoice st) processing (hasClonedVoice st)
        (timers st ++ [(now + 2000, afterProcessing)])
  | afterProcessing => MkSettings Cloned success true (timers st)
  end.

(** What can happen to the voice settings: a click on a card of [VOICES],
    a click on the cloned-voice button, a click on the cloning button, the
    host running a pending timer. *)
Inductive Action :=
  | PickVoice (card : nat)
  | PickCloned
  | StartCloning (now : N)
  | TimerFires (k : nat) (now : N).

(** The cloning button is rendered while there is no cloned voice and
    [cloningState] is [idle]; the cloned-voice button once there is one.  A
    timer runs once, not before it is due. *)
Definition act (st : Settings) (a : Action) : Settings :=
  match a with
  | PickVoice card =>
      match VOICES !! card with
      | Some v =>
          MkSettings (id v) (cloningState st) (hasClonedVoice st) (timers st)
      | None => st
      end
  | PickCloned =>
      if hasClonedVoice st
      then MkSettings Cloned (cloningState st) (hasClonedVoice st) (timers st)
      else st
  | StartCloning now =>
      match hasClonedVoice st, cloningState st with
      | false, idle => handleVoiceCloning now st
      | _, _ => st
      end
  | TimerFires k now =>
      match timers st !! k with
      | Some (due, t) =>
          if due <=? now
          then fire t now
                 (MkSettings (selectedVoice st) (cloningState st)
                    (hasClonedVoice st) (delete k (timers st)))
          else st
      | None => st
      end
  end.

(** Clicks on the voice buttons. *)
Definition isPick (a : Action) : Prop :=
  match a with PickVoice _ | PickCloned => True | _ => False end.

End Voice.

(** ** Vocabulary of the further properties *)

(** Two states that differ in the traces only. *)
Definition sameButTraces (s s' : State) : Prop :=
  connectionState s' = connectionState s ∧ logs s' = logs s
  ∧ isMuted s' = isMuted s
  ∧ inputAudioContextRef s' = inputAudioContextRef s
  ∧ outputAudioContextRef s' = outputAudioContextRef s
  ∧ outputAnalyserRef s' = outputAnalyserRef s
  ∧ nextStartTimeRef s' = nextStartTimeRef s
  ∧ sourcesRef s' = sourcesRef s
  ∧ sessionPromiseRef s' = sessionPromiseRef s
  ∧ currentInputTranscriptionRef s' = currentInputTranscriptionRef s
  ∧ currentOutputTranscriptionRef s' = currentOutputTranscriptionRef s
  ∧ streamRef s' = streamRef s ∧ streams s' = streams s
  ∧ contexts s' = contexts s ∧ processors s' = processors s
  ∧ promises s' = promises s ∧ nodes s' = nodes s.

Definition sameDevices (s s' : State) : Prop :=
  streams s' = streams s ∧ contexts s' = contexts s
  ∧ streamRef s' = streamRef s
  ∧ inputAudioContextRef s' = inputAudioContextRef s
  ∧ outputAudioContextRef s' = outputAudioContextRef s
  ∧ processors s' = processors s ∧ isMuted s' = isMuted s.

(** A stream that [streamRef] does not hold, a context that neither context
    ref holds. *)
Definition orphanStream (i : nat) (tracks : list ReadyState) (s : State)
    : Prop :=
  streams s !! i = Some tracks ∧ streamRef s ≠ Some i.

Definition orphanContext (c : nat) (state : ContextState) (s : State)
    : Prop :=
  contexts s !! c = Some state
  ∧ inputAudioContextRef s ≠ Some c ∧ outputAudioContextRef s ≠ Some c.

Definition unmuted (s : State) : Prop :=
  isMuted s = false ∧ Forall (fun p => proc_isMuted p = false) (processors s).

(** The four phases of the cloning mock, and what can be selected. *)
Definition voiceSettled (st : Voice.Settings) : Prop :=
  match Voice.cloningState st with
  | Voice.idle => Voice.hasClonedVoice st = false ∧ Voice.timers st = []
  | Voice.recording =>
      Voice.hasClonedVoice st = false
      ∧ ∃ due, Voice.timers st = [(due, Voice.afterRecording)]
  | Voice.processing =>
      Voice.hasClonedVoice st = false
      ∧ ∃ due, Voice.timers st = [(due, Voice.afterProcessing)]
  | Voice.success => Voice.hasClonedVoice st = true ∧ Voice.timers st = []
  end
  ∧ (Voice.selectedVoice st ∈ Voice.id <$> Voice.VOICES
     ∨ (Voice.selectedVoice st = Voice.Cloned
        ∧ Voice.hasClonedVoice st = true)).

(** * Properties *)

Example dialled_connecting :
  connectionState dialled = connecting ∧ sessionPromiseRef dialled = Some 0%nat
  ∧ promises dialled = [pending []] ∧ contexts dialled = [running; running]
  ∧ processors dialled = [{| proc_context := 0; proc_isMuted := false |}].
Proof. vm_compute. repeat split. Qed.

(** ** Traces *)

Lemma run_app key s es1 es2 :
  run key s (es1 ++ es2) = run key (run key s es1) es2.
Proof. unfold run. apply foldl_app. Qed.

Lemma run_snoc key s es e :
  run key s (es ++ [e]) = step key (run key s es) e.
Proof. rewrite run_app. reflexivity. Qed.

(** ** The capture callback and the session promise *)

Lemma sent_reactions pid t q s :
  sent (foldl (fun st blob => sendRealtimeInput pid t blob st) s q)
  = sent s ++ ((fun blob => (pid, blob)) <$> q).
Proof.
  revert s. induction q as [|b q IH]; intros s; simpl.
  - by rewrite app_nil_r.
  - rewrite IH. unfold sendRealtimeInput.
    destruct t; simpl; by rewrite <- app_assoc.
Qed.

Lemma sent_rejections (q : list Blob) s :
  sent (foldl (fun st _ => log_console "Session not ready or failed:" st) s q)
  = sent s.
Proof.
  revert s. induction q as [|b q IH]; intros s; simpl; [done|].
  by rewrite IH.
Qed.


(** Without a session promise the callback returns at once. *)
Lemma onaudioprocess_no_session p blob s :
  sessionPromiseRef s = None → onaudioprocess p blob s = s.
Proof.
  intros H. unfold onaudioprocess. rewrite H. by destruct (proc_isMuted p).
Qed.

(** C1, as stated, fails: a chunk captured while the session promise is
    pending is not dropped.  [then] registers the send on the promise, and
    the send runs when the promise is fulfilled. *)
Lemma chunk_captured_while_pending_is_sent :
  ¬ (∀ (s : State) (p : ScriptProcessor) (blob : Blob) (pid : nat) q es,
       sessionPromiseRef s = Some pid →
       promises s !! pid = Some (pending q) →
       blob ∉ sentBlobs s → blob ∉ q →
       (∀ proc, AudioProcess proc blob ∉ es) →
       blob ∉ sentBlobs (run (Some "key") (onaudioprocess p blob s) es)).
Proof.
  intros H.
  specialize
    (H dialled {| proc_context := 0; proc_isMuted := false |} 7%nat 0%nat []
       [Open ""; SessionResolved 0 false]).
  apply H; try reflexivity.
  - vm_compute. intros Hin. inversion Hin.
  - intros Hin. inversion Hin.
  - intros proc Hin.
    repeat (apply elem_of_cons in Hin as [Hin|Hin]; [discriminate|]).
    inversion Hin.
  - vm_compute. apply list_elem_of_here.
Qed.

(** C1, amended.  With no session promise in [sessionPromiseRef] (before
    [ai.live.connect] has returned, after [disconnect]) the callback
    leaves the state as it is: nothing is kept, so nothing is sent later.
    With a pending promise the send is registered on it, nothing is sent
    yet, and the chunk is sent exactly once, after the chunks registered
    before it, when the promise is fulfilled; never if it is rejected. *)
Theorem capture_before_session_ready (s : State) (p : ScriptProcessor)
    (blob : Blob) :
  (sessionPromiseRef s = None → onaudioprocess p blob s = s)
  ∧ (∀ pid q,
       proc_isMuted p = false →
       sessionPromiseRef s = Some pid →
       promises s !! pid = Some (pending q) →
       let s' := onaudioprocess p blob s in
       sent s' = sent s
       ∧ promises s' !! pid = Some (pending (q ++ [blob]))
       ∧ (∀ t, sent (resolveSession pid t s')
               = sent s ++ ((fun b => (pid, b)) <$> q) ++ [(pid, blob)])
       ∧ sent (rejectSession pid s') = sent s).
Proof.
  split; [apply onaudioprocess_no_session|].
  intros pid q Hm Href Hp s'.
  assert (Hs' : s' = set_promises (<[pid := pending (q ++ [blob])]> (promises s)) s).
  { subst s'. unfold onaudioprocess. by rewrite Hm, Href, Hp. }
  assert (Hl : promises s' !! pid = Some (pending (q ++ [blob]))).
  { rewrite Hs'. simpl. apply list_lookup_insert_eq. by eapply lookup_lt_Some. }
  split; [by rewrite Hs'|]. split; [done|]. split.
  - intros t. unfold resolveSession. rewrite Hl, sent_reactions.
    rewrite Hs'. simpl. by rewrite fmap_app.
  - unfold rejectSession. rewrite Hl, sent_rejections. by rewrite Hs'.
Qed.

Lemma capture_before_session_ready_witness :
  onaudioprocess {| proc_context := 0; proc_isMuted := false |} 7%nat initial
  = initial
  ∧ sent (resolveSession 0 false
            (onaudioprocess {| proc_context := 0; proc_isMuted := false |}
               7%nat dialled))
    = [(0%nat, 7%nat)].
Proof.
  split.
  - apply (capture_before_session_ready initial). reflexivity.
  - pose proof
      (proj2 (capture_before_session_ready dialled
                {| proc_context := 0; proc_isMuted := false |} 7%nat)
         0%nat [] eq_refl eq_refl eq_refl) as (_ & _ & H & _).
    exact (H false).
Defined.

(** ** The mute gate *)


(** The gate and a mute state that changes after the call was placed.
    Mute is off when the call is placed and [isMuted] becomes true once the
    session is connected: the callback registered by [initializeAudio]
    still holds the [isMuted] of the render that placed the call, so the
    three chunks captured afterwards are all sent.  The other way round, a
    call placed while mute is on sends nothing even after [isMuted] has
    become false. *)
Lemma mute_toggled_after_connect_is_not_seen :
  let key := Some "key" in
  let call :=
    [ConnectRequest (Some 1%nat) None; SessionResolved 0 false; Open ""] in
  let capture := [AudioProcess 0 1%nat; AudioProcess 0 2%nat; AudioProcess 0 3%nat] in
  let s := run key initial (call ++ [SetIsMuted true]) in
  let s' := run key (set_isMuted true initial) (call ++ [SetIsMuted false]) in
  (isMuted s = true ∧ connectionState s = connected ∧ sent s = []
   ∧ sentBlobs (run key s capture) = [1%nat; 2%nat; 3%nat])
  ∧ (isMuted s' = false ∧ connectionState s' = connected
     ∧ sentBlobs (run key s' capture) = []).
Proof. vm_compute. repeat split. Qed.




(** ** Remote close *)

(** [onclose] writes the connection state, one log entry and one console
    line, and nothing else. *)
Lemma onclose_keeps_session s :
  sessionPromiseRef (onclose s) = sessionPromiseRef s
  ∧ nextStartTimeRef (onclose s) = nextStartTimeRef s
  ∧ sourcesRef (onclose s) = sourcesRef s
  ∧ currentInputTranscriptionRef (onclose s) = currentInputTranscriptionRef s
  ∧ currentOutputTranscriptionRef (onclose s)
    = currentOutputTranscriptionRef s
  ∧ streams (onclose s) = streams s
  ∧ contexts (onclose s) = contexts s.
Proof. repeat split. Qed.

(** C9 at its failing input.  A connected session has heard "merhaba" and
    has scheduled half a second of audio at frame 100 when the transport
    closes.  [onclose] sets the state to [disconnected] and resets nothing:
    the promise is still in [sessionPromiseRef], the next start time is
    still 12100, the source is still in the set, the accumulator still
    holds "merhaba", the track is live, both contexts run, and the next
    captured chunk is still sent.  [disconnect] from the same state resets
    all of it.  A call placed after the remote close schedules its first
    fragment, arriving at frame 0 of the new output context, at the stale
    12100. *)
Theorem remote_close_resets_nothing :
  let key := Some "key" in
  let s :=
    run key initial
      [ConnectRequest (Some 1%nat) None; SessionResolved 0 false; Open "";
       Message 0
         {| outputTranscription := None; inputTranscription := Some "merhaba";
            turnComplete := false; modelTurn := None; interrupted := false |};
       Message 100 (audioMessage (AudioBuffer 12000))] in
  let s' := step key s Close in
  let d := step key s DisconnectRequest in
  (connectionState s' = disconnected
   ∧ sessionPromiseRef s' = Some 0%nat
   ∧ nextStartTimeRef s' = 12100
   ∧ elements (sourcesRef s') = [0%nat]
   ∧ currentInputTranscriptionRef s' = "merhaba"
   ∧ streams s' = [[live]]
   ∧ contexts s' = [running; running]
   ∧ sentBlobs (step key s' (AudioProcess 0 5%nat)) = [5%nat])
  ∧ (connectionState d = disconnected
     ∧ sessionPromiseRef d = None
     ∧ nextStartTimeRef d = 0
     ∧ elements (sourcesRef d) = []
     ∧ currentInputTranscriptionRef d = ""
     ∧ streams d = [[ended]]
     ∧ contexts d = [closed; closed]
     ∧ sentBlobs (step key d (AudioProcess 0 5%nat)) = [])
  ∧ when <$> nodes
       (run key s'
          [ConnectRequest (Some 1%nat) None;
           Message 0 (audioMessage (AudioBuffer 100))]) = [100; 12100].
Proof. vm_compute. repeat split. Qed.

(** ** What each block of [onmessage] leaves alone *)

Lemma handleAudio_keeps now m s :
  logs (handleAudio now m s).1 = logs s
  ∧ connectionState (handleAudio now m s).1 = connectionState s
  ∧ currentInputTranscriptionRef (handleAudio now m s).1
    = currentInputTranscriptionRef s
  ∧ currentOutputTranscriptionRef (handleAudio now m s).1
    = currentOutputTranscriptionRef s.
Proof.
  unfold handleAudio.
  destruct (base64Audio m) as [[[d|]|]|]; simpl; try done;
    destruct (outputAudioContextRef s), (outputAnalyserRef s); done.
Qed.

Lemma handleInterruption_keeps m s :
  logs (handleInterruption m s) = logs s
  ∧ connectionState (handleInterruption m s) = connectionState s
  ∧ currentInputTranscriptionRef (handleInterruption m s)
    = currentInputTranscriptionRef s
  ∧ currentOutputTranscriptionRef (handleInterruption m s)
    = currentOutputTranscriptionRef s.
Proof. unfold handleInterruption. by destruct (interrupted m). Qed.

(** The state in which [onmessage] leaves the log and the accumulators is
    the one after the turn-complete block. *)
Lemma onmessage_transcript now m s :
  let s2 := handleTurnComplete m (handleTranscription m s) in
  logs (onmessage now m s).1 = logs s2
  ∧ currentInputTranscriptionRef (onmessage now m s).1
    = currentInputTranscriptionRef s2
  ∧ currentOutputTranscriptionRef (onmessage now m s).1
    = currentOutputTranscriptionRef s2.
Proof.
  intros s2. unfold onmessage. fold s2.
  destruct (handleAudio_keeps now m s2) as (Hl & _ & Hi & Ho).
  destruct (handleAudio now m s2) as [s3 []]; simpl in *.
  - destruct (handleInterruption_keeps m s3) as (Hl' & _ & Hi' & Ho').
    by rewrite Hl', Hi', Ho'.
  - done.
Qed.

Lemma truthy_false t : truthy t = false ↔ t = "".
Proof. destruct t; simpl; split; intros; congruence. Qed.

(** ** Transcript aggregation *)

Lemma handleTurnComplete_flushes m s :
  turnComplete m = true →
  logs (handleTurnComplete m s)
  = logs s ++ entry user (currentInputTranscriptionRef s)
      ++ entry agent (currentOutputTranscriptionRef s)
  ∧ currentInputTranscriptionRef (handleTurnComplete m s) = ""
  ∧ currentOutputTranscriptionRef (handleTurnComplete m s) = "".
Proof.
  intros Ht. unfold handleTurnComplete, entry. rewrite Ht.
  destruct (truthy (currentInputTranscriptionRef s)) eqn:Hi;
    destruct (truthy (currentOutputTranscriptionRef s)) eqn:Ho; simpl;
    rewrite ?Ho; simpl;
    repeat case_decide;
    repeat match goal with
      | H : truthy _ = false |- _ => apply truthy_false in H
      | H : truthy ?t = true, E : ?t = "" |- _ =>
          rewrite E in H; discriminate
      end;
    rewrite ?app_nil_r; try rewrite <- app_assoc; try done; try congruence.
Qed.

(** C5.  A message that says the turn is complete adds to the log one
    caller entry with the text of the inbound accumulator if that text is
    not empty, then one agent entry with the text of the outbound
    accumulator if that text is not empty, and nothing else; both
    accumulators are empty afterwards.  The accumulators are read after
    the fragment of the same message, if it has one, has been appended;
    a message with no fragment flushes them as they were. *)
Theorem turn_complete_flushes_both (now : N) (m : LiveServerMessage)
    (s : State) :
  turnComplete m = true →
  let acc := handleTranscription m s in
  let s' := (onmessage now m s).1 in
  logs s'
  = logs s ++ entry user (currentInputTranscriptionRef acc)
      ++ entry agent (currentOutputTranscriptionRef acc)
  ∧ currentInputTranscriptionRef s' = ""
  ∧ currentOutputTranscriptionRef s' = ""
  ∧ (outputTranscription m = None → inputTranscription m = None →
     currentInputTranscriptionRef acc = currentInputTranscriptionRef s
     ∧ currentOutputTranscriptionRef acc = currentOutputTranscriptionRef s).
Proof.
  intros Ht acc s'.
  destruct (onmessage_transcript now m s) as (Hl & Hi & Ho).
  destruct (handleTurnComplete_flushes m acc Ht) as (Fl & Fi & Fo).
  subst s'. rewrite Hl, Hi, Ho. fold acc. rewrite Fl, Fi, Fo.
  assert (logs acc = logs s) as ->.
  { subst acc. unfold handleTranscription.
    by destruct (outputTranscription m), (inputTranscription m). }
  split; [done|]. split; [done|]. split; [done|].
  intros Hout Hin. subst acc. unfold handleTranscription.
  by rewrite Hout, Hin.
Qed.

Lemma turn_complete_flushes_both_witness :
  let s := set_currentInputTranscriptionRef "merhaba" dialled in
  let m :=
    {| outputTranscription := None; inputTranscription := None;
       turnComplete := true; modelTurn := None; interrupted := false |} in
  logs (onmessage 0 m s).1 = [{| sender := user; text := "merhaba" |}]
  ∧ logs (onmessage 0 m dialled).1 = [].
Proof.
  split.
  - exact (proj1 (turn_complete_flushes_both 0
        {| outputTranscription := None; inputTranscription := None;
           turnComplete := true; modelTurn := None; interrupted := false |}
        (set_currentInputTranscriptionRef "merhaba" dialled) eq_refl)).
  - exact (proj1 (turn_complete_flushes_both 0
        {| outputTranscription := None; inputTranscription := None;
           turnComplete := true; modelTurn := None; interrupted := false |}
        dialled eq_refl)).
Defined.

(** C6, as stated, fails: of a message that carries both fragments only
    the outbound one is appended; the inbound accumulator is left as it
    was. *)
Lemma both_fragments_inbound_not_appended :
  ¬ (∀ (s : State) (now : N) (m : LiveServerMessage) (t : string),
       turnComplete m = false →
       inputTranscription m = Some t →
       currentInputTranscriptionRef (onmessage now m s).1
       = currentInputTranscriptionRef s +:+ t).
Proof.
  intros H.
  specialize
    (H initial 0
       {| outputTranscription := Some "evet"; inputTranscription := Some "alo";
          turnComplete := false; modelTurn := None; interrupted := false |}
       "alo" eq_refl eq_refl).
  vm_compute in H. discriminate H.
Qed.

(** C6, amended.  The outbound fragment, if the message has one, is
    appended to the outbound accumulator; the inbound fragment is appended
    to the inbound accumulator if the message has no outbound fragment.  A
    message with both appends to the outbound accumulator only. *)
Theorem transcription_outbound_else_inbound (now : N)
    (m : LiveServerMessage) (s : State) :
  turnComplete m = false →
  let s' := (onmessage now m s).1 in
  match outputTranscription m, inputTranscription m with
  | Some o, _ =>
      currentOutputTranscriptionRef s' = currentOutputTranscriptionRef s +:+ o
      ∧ currentInputTranscriptionRef s' = currentInputTranscriptionRef s
  | None, Some i =>
      currentOutputTranscriptionRef s' = currentOutputTranscriptionRef s
      ∧ currentInputTranscriptionRef s' = currentInputTranscriptionRef s +:+ i
  | None, None =>
      currentOutputTranscriptionRef s' = currentOutputTranscriptionRef s
      ∧ currentInputTranscriptionRef s' = currentInputTranscriptionRef s
  end.
Proof.
  intros Ht s'.
  destruct (onmessage_transcript now m s) as (_ & Hi & Ho).
  subst s'. rewrite Hi, Ho.
  unfold handleTurnComplete. rewrite Ht. unfold handleTranscription.
  destruct (outputTranscription m), (inputTranscription m); done.
Qed.

Lemma transcription_outbound_else_inbound_witness :
  let both :=
    {| outputTranscription := Some "evet"; inputTranscription := Some "alo";
       turnComplete := false; modelTurn := None; interrupted := false |} in
  currentOutputTranscriptionRef (onmessage 0 both initial).1 = "evet"
  ∧ currentInputTranscriptionRef (onmessage 0 both initial).1 = "".
Proof.
  exact (transcription_outbound_else_inbound 0
    {| outputTranscription := Some "evet"; inputTranscription := Some "alo";
       turnComplete := false; modelTurn := None; interrupted := false |}
    initial eq_refl).
Defined.

(** ** The playback scheduler *)

Lemma transcript_keeps_scheduler m s :
  let s2 := handleTurnComplete m (handleTranscription m s) in
  nodes s2 = nodes s ∧ nextStartTimeRef s2 = nextStartTimeRef s
  ∧ sourcesRef s2 = sourcesRef s
  ∧ outputAudioContextRef s2 = outputAudioContextRef s
  ∧ outputAnalyserRef s2 = outputAnalyserRef s.
Proof.
  unfold handleTurnComplete, handleTranscription.
  destruct (outputTranscription m), (inputTranscription m),
    (turnComplete m); simpl;
    repeat match goal with
      | |- context [truthy ?t] => destruct (truthy t); simpl
      end; done.
Qed.

Lemma onmessage_schedules now m s d :
  playable s → decodedFrames m = Some d → interrupted m = false →
  let s' := (onmessage now m s).1 in
  (onmessage now m s).2 = Returned
  ∧ nodes s'
    = nodes s
        ++ [{| when := N.max now (nextStartTimeRef s); duration := d;
               stopped := false |}]
  ∧ nextStartTimeRef s' = N.max now (nextStartTimeRef s) + d
  ∧ sourcesRef s' = sourcesRef s ∪ {[length (nodes s)]}
  ∧ playable s'.
Proof.
  intros [[c Hc] [a Ha]] Hd Hi. unfold decodedFrames in Hd.
  unfold onmessage, playable.
  destruct (transcript_keeps_scheduler m s) as (Hn & Ht & Hs & Hc' & Ha').
  set (s2 := handleTurnComplete m (handleTranscription m s)) in *.
  unfold handleAudio.
  destruct (base64Audio m) as [[[d'|]|]|]; try discriminate.
  injection Hd as ->.
  rewrite Hc', Ha', Hc, Ha. simpl.
  unfold handleInterruption. rewrite Hi. simpl.
  rewrite Hn, Ht, Hs, Hc', Ha', Hc, Ha, (N.max_comm now).
  repeat split; eauto.
Qed.

Lemma receive_snoc s arrivals a :
  receive s (arrivals ++ [a]) = (onmessage a.1 a.2 (receive s arrivals)).1.
Proof. unfold receive. by rewrite foldl_app. Qed.

Lemma receive_playable arrivals : ∀ s,
  playable s → Forall uninterrupted arrivals → playable (receive s arrivals).
Proof.
  induction arrivals as [|[now m] rest IH]; intros s Hp Hall; [done|].
  apply Forall_cons in Hall as [[[d Hd] Hi] Hall]. simpl in *.
  apply IH; [|done].
  by destruct (onmessage_schedules now m s d Hp Hd Hi) as (_ & _ & _ & _ & ?).
Qed.

Lemma receive_schedule arrivals : ∀ s,
  playable s → Forall uninterrupted arrivals →
  nodes (receive s arrivals)
  = nodes s ++ schedule (nextStartTimeRef s) arrivals.
Proof.
  induction arrivals as [|[now m] rest IH]; intros s Hp Hall; simpl.
  - by rewrite app_nil_r.
  - apply Forall_cons in Hall as [[[d Hd] Hi] Hall]. simpl in *.
    destruct (onmessage_schedules now m s d Hp Hd Hi)
      as (_ & Hn & Ht & _ & Hp').
    fold (receive (onmessage now m s).1 rest).
    rewrite IH, Hn, Ht, Hd by done. simpl. by rewrite <- app_assoc.
Qed.

Lemma schedule_consecutive arrivals : ∀ next i now m source source',
  arrivals !! S i = Some (now, m) →
  schedule next arrivals !! i = Some source →
  schedule next arrivals !! S i = Some source' →
  when source' = N.max now (when source + duration source).
Proof.
  induction arrivals as [|[now0 m0] rest IH];
    intros next i now m source source' Ha H1 H2; [done|].
  destruct i as [|i]; simpl in *.
  - injection H1 as <-. simpl.
    destruct rest as [|[now1 m1] rest']; [done|]. simpl in *.
    injection Ha as -> ->. by injection H2 as <-.
  - eapply IH; eauto.
Qed.

(** C2.  Fragments that decode, arriving one after the other at a
    component whose output context and analyser are set up, none of them
    with the interruption flag: the source made of fragment [i] is started
    at the later of the clock at its arrival and [nextStartTimeRef], and
    [nextStartTimeRef] then is that start plus the duration of the
    fragment; the start of each source is at least the start of the source
    before it plus that source's duration, hence not before it, and is
    equal to it when the fragment arrived no later than that. *)
Theorem playback_is_gapless (s : State)
    (arrivals : list (N * LiveServerMessage)) :
  playable s →
  Forall uninterrupted arrivals →
  (∀ i now m,
     arrivals !! i = Some (now, m) →
     let before := receive s (take i arrivals) in
     let after := receive s (take (S i) arrivals) in
     ∃ d,
       decodedFrames m = Some d
       ∧ nodes after
         = nodes before
             ++ [{| when := N.max now (nextStartTimeRef before);
                    duration := d; stopped := false |}]
       ∧ nextStartTimeRef after = N.max now (nextStartTimeRef before) + d
       ∧ sourcesRef after = sourcesRef before ∪ {[length (nodes before)]})
  ∧ (∀ i now m source source',
       arrivals !! S i = Some (now, m) →
       nodes (receive s arrivals) !! (length (nodes s) + i)%nat
       = Some source →
       nodes (receive s arrivals) !! (length (nodes s) + S i)%nat
       = Some source' →
       when source ≤ when source'
       ∧ when source + duration source ≤ when source'
       ∧ (now ≤ when source + duration source →
          when source' = when source + duration source)).
Proof.
  intros Hp Hall. split.
  - intros i now m Ha before after.
    assert (Hok : uninterrupted (now, m)).
    { rewrite Forall_lookup in Hall. by apply (Hall i). }
    destruct Hok as [[d Hd] Hi]. simpl in *.
    exists d. split; [done|].
    assert (Hb : playable before).
    { apply receive_playable; [done|]. by apply Forall_take. }
    subst after. rewrite (take_S_r _ _ _ Ha), receive_snoc. fold before.
    by destruct (onmessage_schedules now m before d Hb Hd Hi)
      as (_ & ? & ? & ? & _).
  - intros i now m source source' Ha H1 H2.
    rewrite receive_schedule in H1, H2 by done.
    rewrite lookup_app_r in H1, H2 by lia.
    replace (length (nodes s) + i - length (nodes s))%nat with i in H1 by lia.
    replace (length (nodes s) + S i - length (nodes s))%nat with (S i)
      in H2 by lia.
    pose proof (schedule_consecutive _ _ _ _ _ _ _ Ha H1 H2) as Hw.
    lia.
Qed.

(** The second scenario of the spec: two fragments of half a second, the
    second arriving while the first plays. *)
Lemma playback_is_gapless_witness :
  let arrivals :=
    [(100, audioMessage (AudioBuffer 12000));
     (150, audioMessage (AudioBuffer 12000))] in
  let source := {| when := 100; duration := 12000; stopped := false |} in
  let source' := {| when := 12100; duration := 12000; stopped := false |} in
  playable dialled
  ∧ Forall uninterrupted arrivals
  ∧ nodes (receive dialled arrivals) = [source; source']
  ∧ when source ≤ when source'
  ∧ when source + duration source ≤ when source'
  ∧ (150 ≤ when source + duration source →
     when source' = when source + duration source).
Proof.
  intros arrivals source source'.
  assert (Hp : playable dialled) by (split; eexists; reflexivity).
  assert (Hall : Forall uninterrupted arrivals).
  { repeat constructor; eexists; reflexivity. }
  split; [exact Hp|]. split; [exact Hall|]. split; [reflexivity|].
  exact (proj2 (playback_is_gapless dialled arrivals Hp Hall)
           0%nat 150 (audioMessage (AudioBuffer 12000)) source source'
           eq_refl eq_refl eq_refl).
Defined.

(** ** Interruption *)

Lemma stop_idempotent n : stop (stop n) = stop n.
Proof. reflexivity. Qed.

Lemma stopped_sources (l : list nat) (ns : list SourceNode) (id : nat) :
  foldr (fun source ns => alter stop source ns) ns l !! id
  = if decide (id ∈ l) then stop <$> ns !! id else ns !! id.
Proof.
  induction l as [|a l IH].
  - rewrite decide_False; [done|]. apply not_elem_of_nil.
  - cbn [foldr]. destruct (decide (a = id)) as [->|Hne].
    + rewrite list_lookup_alter_eq, IH.
      rewrite (decide_True (P := id ∈ id :: l)) by apply list_elem_of_here.
      destruct (decide (id ∈ l)); [|done]. by destruct (ns !! id).
    + rewrite list_lookup_alter_ne, IH by done.
      destruct (decide (id ∈ l)) as [Hin|Hin].
      * rewrite decide_True; [done|]. by apply list_elem_of_further.
      * rewrite decide_False; [done|].
        intros [->|?]%elem_of_cons; done.
Qed.

(** The interruption block, when the message reaches it: every source of
    the set is stopped, no other node is touched, the set is empty and the
    next start time is zero. *)
Lemma handleInterruption_resets m s :
  interrupted m = true →
  let s' := handleInterruption m s in
  (∀ source n, source ∈ sourcesRef s → nodes s !! source = Some n →
     nodes s' !! source = Some (stop n))
  ∧ (∀ source, source ∉ sourcesRef s → nodes s' !! source = nodes s !! source)
  ∧ sourcesRef s' = ∅
  ∧ nextStartTimeRef s' = 0.
Proof.
  intros Hi. unfold handleInterruption. rewrite Hi. simpl.
  split; [|split; [|done]].
  - intros source n Hin Hn. rewrite stopped_sources.
    rewrite decide_True by by apply elem_of_elements. by rewrite Hn.
  - intros source Hin. rewrite stopped_sources.
    rewrite decide_False; [done|]. by rewrite elem_of_elements.
Qed.

(** A message with the flag whose audio block returns does all of that,
    and the fragment that arrives next starts at the clock. *)
Lemma interruption_when_reached now m s s' :
  interrupted m = true →
  onmessage now m s = (s', Returned) →
  sourcesRef s' = ∅ ∧ nextStartTimeRef s' = 0
  ∧ (∀ now' m' d, playable s' → decodedFrames m' = Some d →
       interrupted m' = false →
       nodes (onmessage now' m' s').1
       = nodes s' ++ [{| when := now'; duration := d; stopped := false |}]).
Proof.
  intros Hi Hr. unfold onmessage in Hr.
  destruct (handleAudio now m _) as [s3 []]; [|discriminate].
  injection Hr as <-.
  destruct (handleInterruption_resets m s3 Hi) as (_ & _ & Hs & Ht).
  split; [done|]. split; [done|].
  intros now' m' d Hp Hd Hi'.
  destruct (onmessage_schedules now' m' _ d Hp Hd Hi') as (_ & Hn & _).
  rewrite Hn, Ht. by rewrite N.max_0_r.
Qed.

(** C3 at its failing input.  One source is playing, scheduled at frame
    100 for half a second.  A message that carries the flag alone stops
    it, empties the set and resets the next start time.  A message that
    carries the flag together with audio that does not decode, or with a
    model turn that has no parts, leaves [onmessage] by the exception
    raised in the audio block, before the interruption block: the source is
    neither stopped nor removed, the next start time stays at 12100, and
    the fragment that arrives next, at frame 300, is started at 12100. *)
Theorem interruption_lost_when_audio_block_throws :
  let key := Some "key" in
  let s :=
    run key initial
      [ConnectRequest (Some 1%nat) None; SessionResolved 0 false; Open "";
       Message 100 (audioMessage (AudioBuffer 12000))] in
  let playing := {| when := 100; duration := 12000; stopped := false |} in
  let alone := onmessage 200 (interruptedMessage None) s in
  let undecodable :=
    onmessage 200
      (interruptedMessage (Some {| parts := Some [Some DecodeError] |})) s in
  let partless :=
    onmessage 200 (interruptedMessage (Some {| parts := None |})) s in
  let next st := (onmessage 300 (audioMessage (AudioBuffer 50)) st).1 in
  (nodes s = [playing] ∧ elements (sourcesRef s) = [0%nat]
   ∧ nextStartTimeRef s = 12100)
  ∧ (alone.2 = Returned ∧ nodes alone.1 = [stop playing]
     ∧ elements (sourcesRef alone.1) = [] ∧ nextStartTimeRef alone.1 = 0
     ∧ when <$> nodes (next alone.1) = [100; 300])
  ∧ (undecodable.2 = Threw ∧ nodes undecodable.1 = [playing]
     ∧ elements (sourcesRef undecodable.1) = [0%nat]
     ∧ nextStartTimeRef undecodable.1 = 12100
     ∧ when <$> nodes (next undecodable.1) = [100; 12100])
  ∧ (partless.2 = Threw ∧ nodes partless.1 = [playing]
     ∧ elements (sourcesRef partless.1) = [0%nat]
     ∧ nextStartTimeRef partless.1 = 12100
     ∧ when <$> nodes (next partless.1) = [100; 12100]).
Proof. vm_compute. repeat split. Qed.

(** ** Disconnect *)

Lemma stopTrack_idempotent (tracks : list ReadyState) :
  stopTrack <$> (stopTrack <$> tracks) = stopTrack <$> tracks.
Proof.
  rewrite <- list_fmap_compose. apply list_fmap_ext.
  by intros _ [] _.
Qed.

(** [disconnect], field by field. *)
Lemma disconnect_fields (s : State) :
  disconnect s
  = MkState disconnected [] (isMuted s) None None (inputAnalyserRef s)
      (outputAnalyserRef s) 0 ∅ None "" "" (streamRef s)
      (match streamRef s with
       | Some stream => alter (fmap stopTrack) stream (streams s)
       | None => streams s
       end)
      (let ctxs :=
         match inputAudioContextRef s with
         | Some ctx => <[ctx := closed]> (contexts s)
         | None => contexts s
         end in
       match outputAudioContextRef s with
       | Some ctx => <[ctx := closed]> ctxs
       | None => ctxs
       end)
      (processors s) (promises s) (nodes s) (sent s) (console s).
Proof.
  destruct s as [cs lg mu ic oc ia oa nx src sp ci co sr stm ctx pr pm nd sn cn].
  destruct sr, ic, oc; reflexivity.
Qed.

(** C7.  After [disconnect] the connection state is [disconnected], the
    log and both accumulators are empty, the next start time is zero, the
    set of sources is empty and there is no session promise.  A second
    [disconnect] changes nothing at all: the context refs are empty, so no
    context is closed again, and stopping the tracks of the stream, which
    have ended, leaves them ended. *)
Theorem disconnect_idempotent (s : State) :
  let s1 := disconnect s in
  (connectionState s1 = disconnected
   ∧ logs s1 = []
   ∧ currentInputTranscriptionRef s1 = ""
   ∧ currentOutputTranscriptionRef s1 = ""
   ∧ nextStartTimeRef s1 = 0
   ∧ sourcesRef s1 = ∅
   ∧ sessionPromiseRef s1 = None
   ∧ inputAudioContextRef s1 = None
   ∧ outputAudioContextRef s1 = None)
  ∧ disconnect s1 = s1
  ∧ streams (disconnect s1) = streams s1
  ∧ contexts (disconnect s1) = contexts s1.
Proof.
  assert (Hfix : disconnect (disconnect s) = disconnect s).
  { rewrite (disconnect_fields (disconnect s)).
    rewrite !(disconnect_fields s). cbn [isMuted inputAnalyserRef
      outputAnalyserRef streamRef streams contexts processors promises nodes
      sent console inputAudioContextRef outputAudioContextRef].
    f_equal. destruct (streamRef s) as [stream|]; [|done].
    rewrite list_alter_alter_eq. apply list_alter_ext; [|done].
    intros tracks _. apply stopTrack_idempotent. }
  intros s1. subst s1. rewrite Hfix.
  split; [|done]. by rewrite disconnect_fields.
Qed.

(** ** Errors *)

Lemma sendRealtimeInput_silent pid t blob s :
  logs (sendRealtimeInput pid t blob s) = logs s
  ∧ connectionState (sendRealtimeInput pid t blob s) = connectionState s.
Proof. unfold sendRealtimeInput. by destruct t. Qed.

Lemma reactions_silent pid t q : ∀ s,
  logs (foldl (fun st blob => sendRealtimeInput pid t blob st) s q) = logs s
  ∧ connectionState
      (foldl (fun st blob => sendRealtimeInput pid t blob st) s q)
    = connectionState s.
Proof.
  induction q as [|b q IH]; intros s; simpl; [done|].
  destruct (IH (sendRealtimeInput pid t b s)) as [-> ->].
  apply sendRealtimeInput_silent.
Qed.

Lemma onaudioprocess_silent p blob s :
  logs (onaudioprocess p blob s) = logs s
  ∧ connectionState (onaudioprocess p blob s) = connectionState s.
Proof.
  unfold onaudioprocess.
  destruct (proc_isMuted p); [done|].
  destruct (sessionPromiseRef s) as [pid|]; [|done].
  destruct (promises s !! pid) as [[q|t|]|]; try done.
  apply sendRealtimeInput_silent.
Qed.

Lemma transcript_keeps_connection m s :
  connectionState (handleTurnComplete m (handleTranscription m s))
  = connectionState s.
Proof.
  unfold handleTurnComplete, handleTranscription.
  destruct (outputTranscription m), (inputTranscription m),
    (turnComplete m); simpl;
    repeat match goal with
      | |- context [truthy ?t] => destruct (truthy t); simpl
      end; done.
Qed.

(** C8.  The transport's error callback and a failed microphone
    acquisition each set the connection state to [error] and add exactly
    one system entry to the log; neither acquires a stream, creates a
    context or opens a transport again.  The per-chunk errors add nothing
    to the log and leave the connection state alone: the capture callback
    and the reactions of the session promise, a send that throws included,
    and the audio block of a message, a fragment that does not decode
    included (the log after the message is the log after the same message
    without its audio).  A connect request whose microphone acquisition
    fails ends in [error] with that one entry and no stream. *)
Theorem fatal_errors_log_once_chunk_errors_never (s : State) :
  (connectionState (onerror s) = error
   ∧ logs (onerror s)
     = logs s ++ [{| sender := system; text := "Bağlantı hatası oluştu." |}]
   ∧ streams (onerror s) = streams s
   ∧ contexts (onerror s) = contexts s
   ∧ promises (onerror s) = promises s
   ∧ sessionPromiseRef (onerror s) = sessionPromiseRef s)
  ∧ (connectionState (initializeAudio None s) = error
     ∧ logs (initializeAudio None s)
       = logs s
           ++ [{| sender := system;
                  text := "Mikrofon hatası. Lütfen izinleri kontrol edin." |}]
     ∧ streams (initializeAudio None s) = streams s
     ∧ contexts (initializeAudio None s) = contexts s
     ∧ promises (initializeAudio None s) = promises s
     ∧ sessionPromiseRef (initializeAudio None s) = sessionPromiseRef s)
  ∧ (∀ API_KEY,
       hasKey API_KEY = true →
       let s' := connectToGemini API_KEY None None s in
       connectionState s' = error
       ∧ logs s'
         = logs s
             ++ [{| sender := system;
                    text := "Mikrofon hatası. Lütfen izinleri kontrol edin." |}]
       ∧ streams s' = streams s
       ∧ contexts s' = contexts s)
  ∧ (∀ p blob,
       logs (onaudioprocess p blob s) = logs s
       ∧ connectionState (onaudioprocess p blob s) = connectionState s)
  ∧ (∀ pid sendThrows,
       logs (resolveSession pid sendThrows s) = logs s
       ∧ connectionState (resolveSession pid sendThrows s)
         = connectionState s)
  ∧ (∀ now m,
       logs (onmessage now m s).1 = logs (onmessage now (withoutAudio m) s).1
       ∧ connectionState (onmessage now m s).1 = connectionState s).
Proof.
  split; [by repeat split|]. split; [by repeat split|].
  split.
  { intros key Hk. unfold connectToGemini. rewrite Hk. simpl.
    by repeat split. }
  split; [intros p blob; apply onaudioprocess_silent|]. split.
  - intros pid t. unfold resolveSession.
    destruct (promises s !! pid) as [[q|t'|]|]; try done.
    destruct (reactions_silent pid t q
                (set_promises (<[pid := fulfilled t]> (promises s)) s))
      as [-> ->].
    done.
  - intros now m. split.
    + destruct (onmessage_transcript now m s) as (-> & _).
      by destruct (onmessage_transcript now (withoutAudio m) s) as (-> & _).
    + unfold onmessage.
      pose proof (transcript_keeps_connection m s) as Hc.
      set (s2 := handleTurnComplete m (handleTranscription m s)) in *.
      destruct (handleAudio_keeps now m s2) as (_ & Hc' & _).
      destruct (handleAudio now m s2) as [s3 []]; simpl in *.
      * destruct (handleInterruption_keeps m s3) as (_ & -> & _). congruence.
      * congruence.
Qed.

Lemma fatal_errors_log_once_chunk_errors_never_witness :
  let s := connectToGemini (Some "key") None None initial in
  connectionState s = error
  ∧ logs s
    = [{| sender := system;
          text := "Mikrofon hatası. Lütfen izinleri kontrol edin." |}]
  ∧ streams s = [] ∧ contexts s = [].
Proof.
  destruct (fatal_errors_log_once_chunk_errors_never initial)
    as (_ & _ & H & _).
  exact (H (Some "key") eq_refl).
Defined.

(** ** Connecting without a key *)

Lemma step_idle key s e : hasKey key = false → idle s → idle (step key s e).
Proof.
  intros Hk (Hc & Hs & Hx & Hp & Hm & Hsr & Hi & Ho & Hsp).
  destruct e; simpl.
  - unfold connectToGemini. rewrite Hk. simpl. by repeat split.
  - rewrite disconnect_fields, Hsr, Hi, Ho. by repeat split.
  - by repeat split.
  - unfold transportOpened. rewrite Hm. by repeat split.
  - unfold transportOpened. rewrite Hm. by repeat split.
  - unfold transportOpened. rewrite Hm. by repeat split.
  - unfold transportOpened. rewrite Hm. by repeat split.
  - unfold resolveSession. rewrite Hm. by repeat split.
  - unfold rejectSession. rewrite Hm. by repeat split.
  - rewrite Hp. by repeat split.
  - by repeat split.
Qed.

Lemma run_idle key es : ∀ s, hasKey key = false → idle s → idle (run key s es).
Proof.
  induction es as [|e es IH]; intros s Hk Hi; [done|].
  simpl. apply IH; [done|]. by apply step_idle.
Qed.

(** C10.  With no API key (undefined or empty) a connect request adds one
    system entry to the log and does nothing else: the connection state is
    the one it was, no stream is acquired, no context is created, no
    transport is opened.  From the first render on, whatever happens, the
    connection state therefore is [disconnected], never [connecting], and
    there is no stream, no context and no session promise. *)
Theorem connect_without_key_only_logs (API_KEY : option string) :
  hasKey API_KEY = false →
  (∀ mic connectThrows s,
     let s' := connectToGemini API_KEY mic connectThrows s in
     logs s'
     = logs s
         ++ [{| sender := system;
                text := "API Key eksik. Lütfen metadata/env kontrol edin." |}]
     ∧ connectionState s' = connectionState s
     ∧ streams s' = streams s ∧ streamRef s' = streamRef s
     ∧ contexts s' = contexts s ∧ processors s' = processors s
     ∧ promises s' = promises s
     ∧ sessionPromiseRef s' = sessionPromiseRef s)
  ∧ (∀ es,
       let s := run API_KEY initial es in
       connectionState s = disconnected
       ∧ streams s = [] ∧ contexts s = [] ∧ promises s = []
       ∧ sessionPromiseRef s = None).
Proof.
  intros Hk. split.
  - intros mic ct s. unfold connectToGemini. rewrite Hk. simpl.
    by repeat split.
  - intros es s.
    assert (Hi : idle initial) by by repeat split.
    destruct (run_idle API_KEY es initial Hk Hi)
      as (? & ? & ? & _ & ? & _ & _ & _ & ?).
    by repeat split.
Qed.

Lemma connect_without_key_only_logs_witness :
  let s := connectToGemini None (Some 1%nat) None initial in
  connectionState s = disconnected
  ∧ logs s
    = [{| sender := system;
          text := "API Key eksik. Lütfen metadata/env kontrol edin." |}]
  ∧ streams s = [] ∧ promises s = []
  ∧ connectionState
      (run (Some "") initial
         [ConnectRequest (Some 1%nat) None; Open ""; DisconnectRequest;
          ConnectRequest (Some 1%nat) None])
    = disconnected.
Proof.
  destruct (connect_without_key_only_logs None eq_refl) as [H _].
  destruct (H (Some 1%nat) None initial) as (Hl & Hc & Hs & _ & _ & _ & Hp & _).
  destruct (connect_without_key_only_logs (Some "") eq_refl) as [_ H'].
  destruct (H' [ConnectRequest (Some 1%nat) None; Open ""; DisconnectRequest;
                ConnectRequest (Some 1%nat) None]) as (Hc' & _).
  repeat split; assumption.
Defined.

(** * Further properties of the component *)

(** ** What the reactions of the session promise leave alone *)

Lemma sameButTraces_refl s : sameButTraces s s.
Proof. by repeat split. Qed.

Lemma sameButTraces_trans s1 s2 s3 :
  sameButTraces s1 s2 → sameButTraces s2 s3 → sameButTraces s1 s3.
Proof.
  unfold sameButTraces.
  intros (?&?&?&?&?&?&?&?&?&?&?&?&?&?&?&?&?) (?&?&?&?&?&?&?&?&?&?&?&?&?&?&?&?&?).
  repeat split; etrans; eassumption.
Qed.

Lemma sendRealtimeInput_frame pid t blob s :
  sameButTraces s (sendRealtimeInput pid t blob s).
Proof. unfold sendRealtimeInput. destruct t; by repeat split. Qed.

Lemma reactions_frame pid t q : ∀ s,
  sameButTraces s
    (foldl (fun st blob => sendRealtimeInput pid t blob st) s q).
Proof.
  induction q as [|b q IH]; intros s; simpl; [apply sameButTraces_refl|].
  eapply sameButTraces_trans; [apply sendRealtimeInput_frame|apply IH].
Qed.

Lemma rejections_frame (q : list Blob) : ∀ s,
  sameButTraces s
    (foldl (fun st _ => log_console "Session not ready or failed:" st) s q).
Proof.
  induction q as [|b q IH]; intros s; simpl; [apply sameButTraces_refl|].
  eapply sameButTraces_trans; [|apply IH]. by repeat split.
Qed.

(** ** The refs never dangle *)

Lemma refsValid_frame s s' :
  streamRef s' = streamRef s →
  length (streams s') = length (streams s) →
  inputAudioContextRef s' = inputAudioContextRef s →
  outputAudioContextRef s' = outputAudioContextRef s →
  contexts s' = contexts s →
  sessionPromiseRef s' = sessionPromiseRef s →
  length (promises s') = length (promises s) →
  sourcesRef s' = sourcesRef s →
  nodes s' = nodes s →
  refsValid s → refsValid s'.
Proof.
  unfold refsValid. intros E1 E2 E3 E4 E5 E6 E7 E8 E9.
  by rewrite E1, E2, E3, E4, E5, E6, E7, E8, E9.
Qed.

Lemma transcript_refsValid m s :
  refsValid s → refsValid (handleTurnComplete m (handleTranscription m s)).
Proof.
  apply refsValid_frame;
    unfold handleTurnComplete, handleTranscription;
    destruct (outputTranscription m), (inputTranscription m),
      (turnComplete m); simpl;
    repeat match goal with
      | |- context [truthy ?t] => destruct (truthy t); simpl
      end; done.
Qed.

Lemma handleAudio_refsValid now m s :
  refsValid s → refsValid (handleAudio now m s).1.
Proof.
  intros Hv. unfold handleAudio.
  destruct (base64Audio m) as [[[d|]|]|]; simpl; try done;
    destruct (outputAudioContextRef s) eqn:Eo, (outputAnalyserRef s) eqn:Ea;
    simpl; try done; try by (revert Hv; apply refsValid_frame).
  destruct Hv as (Hs & Hi & Ho & Hp & Hn).
  repeat split; simpl; try done.
  intros source [Hin| ->%elem_of_singleton]%elem_of_union.
  - destruct (Hn _ Hin) as (node & Hl & Hst).
    exists node. split; [|done]. by apply lookup_app_l_Some.
  - eexists. split.
    + rewrite lookup_app_r by lia. by rewrite Nat.sub_diag.
    + reflexivity.
Qed.

Lemma handleInterruption_refsValid m s :
  refsValid s → refsValid (handleInterruption m s).
Proof.
  intros (Hs & Hi & Ho & Hp & Hn). unfold handleInterruption.
  destruct (interrupted m); [|done].
  by repeat split.
Qed.

Lemma onmessage_refsValid now m s :
  refsValid s → refsValid (onmessage now m s).1.
Proof.
  intros Hv. unfold onmessage.
  pose proof (handleAudio_refsValid now m _ (transcript_refsValid m s Hv))
    as Ha.
  destruct (handleAudio now m _) as [s3 []]; simpl in *; [|done].
  by apply handleInterruption_refsValid.
Qed.

Lemma initializeAudio_refsValid mic s :
  refsValid s → refsValid (initializeAudio mic s).
Proof.
  intros (Hs & Hi & Ho & Hp & Hn). destruct mic as [n|]; [|done].
  repeat split; simpl; try done.
  - intros i [= <-]. rewrite length_app. simpl. lia.
  - intros c [= <-]. rewrite lookup_app_l by (rewrite length_app; simpl; lia).
    rewrite lookup_app_r by lia. by rewrite Nat.sub_diag.
  - intros c [= <-]. rewrite lookup_app_r by (rewrite length_app; simpl; lia).
    rewrite length_app. simpl.
    by replace (S (length (contexts s)) - (length (contexts s) + 1))%nat
      with 0%nat by lia.
Qed.

Lemma connectToGemini_refsValid key mic connectThrows s :
  refsValid s → refsValid (connectToGemini key mic connectThrows s).
Proof.
  intros Hv. unfold connectToGemini.
  destruct (negb (hasKey key)); [done|].
  assert (Hc : refsValid (set_connectionState connecting s)) by done.
  pose proof (initializeAudio_refsValid mic _ Hc) as Ha.
  set (s1 := initializeAudio mic (set_connectionState connecting s)) in *.
  destruct connectThrows as [err|]; [done|].
  destruct Ha as (Hs & Hi & Ho & Hp & Hn).
  repeat split; simpl; try done.
  intros p [= <-]. rewrite length_app. simpl. lia.
Qed.

Lemma disconnect_refsValid s : refsValid s → refsValid (disconnect s).
Proof.
  intros (Hs & Hi & Ho & Hp & Hn). rewrite disconnect_fields.
  repeat split; simpl; try done.
  intros i Hi'. destruct (streamRef s); [|done].
  rewrite length_alter. by apply Hs.
Qed.

Lemma onaudioprocess_refsValid p blob s :
  refsValid s → refsValid (onaudioprocess p blob s).
Proof.
  intros Hv. unfold onaudioprocess.
  destruct (proc_isMuted p); [done|].
  destruct (sessionPromiseRef s) as [pid|] eqn:Ep; [|done].
  destruct (promises s !! pid) as [[q|t|]|]; try done.
  - revert Hv. apply refsValid_frame; simpl; try done.
    by rewrite length_insert.
  - destruct (sendRealtimeInput_frame pid t blob s)
      as (?&?&?&?&?&?&?&?&?&?&?&?&?&?&?&?&?).
    revert Hv. apply refsValid_frame; congruence.
Qed.

Lemma step_refsValid key s e : refsValid s → refsValid (step key s e).
Proof.
  intros Hv. destruct e; simpl.
  - by apply connectToGemini_refsValid.
  - by apply disconnect_refsValid.
  - done.
  - destruct (transportOpened s); [|done]. unfold onopen.
    by destruct (truthy callerName).
  - destruct (transportOpened s); [|done]. by apply onmessage_refsValid.
  - by destruct (transportOpened s).
  - by destruct (transportOpened s).
  - unfold resolveSession.
    destruct (promises s !! pid) as [[q|t|]|]; try done.
    destruct (reactions_frame pid sendThrows q
                (set_promises (<[pid := fulfilled sendThrows]> (promises s)) s))
      as (?&?&?&?&?&?&?&?&?&?&?&?&?&?&?&Hpm&?).
    revert Hv. apply refsValid_frame; simpl in *; try congruence.
    rewrite Hpm. by rewrite length_insert.
  - unfold rejectSession.
    destruct (promises s !! pid) as [[q|t|]|]; try done.
    destruct (rejections_frame q
                (set_promises (<[pid := rejected]> (promises s)) s))
      as (?&?&?&?&?&?&?&?&?&?&?&?&?&?&?&Hpm&?).
    revert Hv. apply refsValid_frame; simpl in *; try congruence.
    rewrite Hpm. by rewrite length_insert.
  - destruct (processors s !! proc) as [p|]; [|done].
    destruct (fires p s); [|done]. by apply onaudioprocess_refsValid.
  - destruct Hv as (Hs & Hi & Ho & Hp & Hn).
    repeat split; simpl; try done.
    intros src [Hin _]%elem_of_difference. by apply Hn.
Qed.

(** X1.  In every state that the component reaches from its first render,
    whatever the key and the events: the stream in [streamRef] and the
    promise in [sessionPromiseRef] exist, a context held by
    [inputAudioContextRef] or [outputAudioContextRef] is running (a closed
    context is never held), and every source in [sourcesRef] is a node
    that was created and on which [stop] was never called. *)
Theorem refs_never_dangle (API_KEY : option string) (es : list Event) :
  refsValid (run API_KEY initial es).
Proof.
  assert (H : ∀ s, refsValid s → refsValid (run API_KEY s es)).
  { induction es as [|e es IH]; intros s Hv; [done|].
    simpl. apply IH. by apply step_refsValid. }
  apply H. by repeat split.
Qed.

(** ** Streams and contexts are released by [disconnect] only *)

Lemma onmessage_keeps_devices now m s :
  sameDevices s (onmessage now m s).1.
Proof.
  assert (Ht : sameDevices s (handleTurnComplete m (handleTranscription m s))).
  { unfold sameDevices, handleTurnComplete, handleTranscription.
    destruct (outputTranscription m), (inputTranscription m),
      (turnComplete m); simpl;
      repeat match goal with
        | |- context [truthy ?t] => destruct (truthy t); simpl
        end; done. }
  assert (Ha : ∀ s2, sameDevices s2 (handleAudio now m s2).1).
  { intros s2. unfold sameDevices, handleAudio.
    destruct (base64Audio m) as [[[d|]|]|]; simpl; try done;
      destruct (outputAudioContextRef s2) eqn:Eo, (outputAnalyserRef s2);
      simpl; rewrite ?Eo; done. }
  assert (Hi : ∀ s3, sameDevices s3 (handleInterruption m s3)).
  { intros s3. unfold sameDevices, handleInterruption.
    by destruct (interrupted m). }
  unfold onmessage.
  set (s2 := handleTurnComplete m (handleTranscription m s)) in *.
  specialize (Ha s2).
  destruct (handleAudio now m s2) as [s3 []]; simpl in *.
  - specialize (Hi s3). unfold sameDevices in *.
    destruct Ht as (?&?&?&?&?&?&?), Ha as (?&?&?&?&?&?&?),
      Hi as (?&?&?&?&?&?&?).
    repeat split; congruence.
  - unfold sameDevices in *.
    destruct Ht as (?&?&?&?&?&?&?), Ha as (?&?&?&?&?&?&?).
    repeat split; congruence.
Qed.

(** What an event other than a disconnect request does to the streams, the
    contexts and the refs that hold them: objects are added at the end, and
    a ref keeps its object or takes a new one. *)
Lemma step_devices key s e :
  e ≠ DisconnectRequest →
  ∃ ls lc,
    streams (step key s e) = streams s ++ ls
    ∧ contexts (step key s e) = contexts s ++ lc
    ∧ (streamRef (step key s e) = streamRef s
       ∨ streamRef (step key s e) = Some (length (streams s)))
    ∧ (inputAudioContextRef (step key s e) = inputAudioContextRef s
       ∨ inputAudioContextRef (step key s e) = Some (length (contexts s)))
    ∧ (outputAudioContextRef (step key s e) = outputAudioContextRef s
       ∨ outputAudioContextRef (step key s e)
         = Some (S (length (contexts s)))).
Proof.
  intros Hne.
  assert (Hsame : ∀ s' : State,
    streams s' = streams s → contexts s' = contexts s →
    streamRef s' = streamRef s →
    inputAudioContextRef s' = inputAudioContextRef s →
    outputAudioContextRef s' = outputAudioContextRef s →
    ∃ ls lc,
      streams s' = streams s ++ ls ∧ contexts s' = contexts s ++ lc
      ∧ (streamRef s' = streamRef s ∨ streamRef s' = Some (length (streams s)))
      ∧ (inputAudioContextRef s' = inputAudioContextRef s
         ∨ inputAudioContextRef s' = Some (length (contexts s)))
      ∧ (outputAudioContextRef s' = outputAudioContextRef s
         ∨ outputAudioContextRef s' = Some (S (length (contexts s))))).
  { intros s' -> -> -> -> ->. exists [], []. rewrite !app_nil_r. tauto. }
  destruct e; simpl; try done.
  - unfold connectToGemini.
    destruct (negb (hasKey key)); [by apply Hsame|].
    destruct mic as [n|], connectThrows as [err|]; simpl;
      try (by apply Hsame);
      exists [replicate n live], [running; running];
      rewrite <- app_assoc; simpl; tauto.
  - by apply Hsame.
  - destruct (transportOpened s); [|by apply Hsame].
    unfold onopen. destruct (truthy callerName); by apply Hsame.
  - destruct (transportOpened s); [|by apply Hsame].
    destruct (onmessage_keeps_devices now m s) as (?&?&?&?&?&_).
    by apply Hsame.
  - destruct (transportOpened s); by apply Hsame.
  - destruct (transportOpened s); by apply Hsame.
  - unfold resolveSession.
    destruct (promises s !! pid) as [[q|t|]|]; try by apply Hsame.
    destruct (reactions_frame pid sendThrows q
                (set_promises (<[pid := fulfilled sendThrows]> (promises s)) s))
      as (?&?&?&?&?&?&?&?&?&?&?&?&?&?&?&?&?).
    by apply Hsame.
  - unfold rejectSession.
    destruct (promises s !! pid) as [[q|t|]|]; try by apply Hsame.
    destruct (rejections_frame q
                (set_promises (<[pid := rejected]> (promises s)) s))
      as (?&?&?&?&?&?&?&?&?&?&?&?&?&?&?&?&?).
    by apply Hsame.
  - destruct (processors s !! proc) as [p|]; [|by apply Hsame].
    destruct (fires p s); [|by apply Hsame].
    unfold onaudioprocess.
    destruct (proc_isMuted p); [by apply Hsame|].
    destruct (sessionPromiseRef s) as [pid|]; [|by apply Hsame].
    destruct (promises s !! pid) as [[q|t|]|]; try by apply Hsame.
    destruct (sendRealtimeInput_frame pid t blob s)
      as (?&?&?&?&?&?&?&?&?&?&?&?&?&?&?&?&?).
    by apply Hsame.
  - by apply Hsame.
Qed.

(** X2.  No event other than a disconnect request ends a track or closes
    an audio context: not the transport's close or error callback, not a
    failed connect request, not an interruption.  Every stream and every
    context that exists keeps its state. *)
Theorem only_disconnect_releases (API_KEY : option string) (s : State)
    (e : Event) :
  e ≠ DisconnectRequest →
  (∀ i tracks, streams s !! i = Some tracks →
     streams (step API_KEY s e) !! i = Some tracks)
  ∧ (∀ c state, contexts s !! c = Some state →
       contexts (step API_KEY s e) !! c = Some state).
Proof.
  intros Hne.
  destruct (step_devices API_KEY s e Hne) as (ls & lc & -> & -> & _).
  split; intros; by apply lookup_app_l_Some.
Qed.

Lemma only_disconnect_releases_witness :
  let s := run (Some "key") dialled [SessionResolved 0 false; Open ""] in
  streams (step (Some "key") s Error) !! 0%nat = Some [live]
  ∧ contexts (step (Some "key") s Close) !! 1%nat = Some running.
Proof.
  split.
  - apply (only_disconnect_releases (Some "key")); [discriminate|reflexivity].
  - apply (only_disconnect_releases (Some "key")); [discriminate|reflexivity].
Defined.

Lemma disconnect_or_not (e : Event) :
  e = DisconnectRequest ∨ e ≠ DisconnectRequest.
Proof. destruct e; (by left) || (by right). Qed.

Lemma step_orphanStream key i tracks s e :
  orphanStream i tracks s → orphanStream i tracks (step key s e).
Proof.
  intros [Hl Hr]. pose proof (lookup_lt_Some _ _ _ Hl) as Hlt.
  destruct (disconnect_or_not e) as [->|Hne].
  - simpl. rewrite disconnect_fields. split; simpl; [|done].
    destruct (streamRef s) as [j|]; [|done].
    rewrite list_lookup_alter_ne; [done|congruence].
  - destruct (step_devices key s e Hne) as (ls & lc & Es & _ & Er & _).
    split.
    + rewrite Es. by apply lookup_app_l_Some.
    + destruct Er as [-> | ->]; [done|]. intros [= ?]. lia.
Qed.

Lemma step_orphanContext key c state s e :
  orphanContext c state s → orphanContext c state (step key s e).
Proof.
  intros (Hl & Hi & Ho). pose proof (lookup_lt_Some _ _ _ Hl) as Hlt.
  destruct (disconnect_or_not e) as [->|Hne].
  - simpl. rewrite disconnect_fields. split; simpl; [|done].
    destruct (inputAudioContextRef s) as [c1|],
      (outputAudioContextRef s) as [c2|];
      rewrite ?list_lookup_insert_ne by congruence; done.
  - destruct (step_devices key s e Hne) as (ls & lc & _ & Ec & _ & Ei & Eo).
    split; [|split].
    + rewrite Ec. by apply lookup_app_l_Some.
    + destruct Ei as [-> | ->]; [done|]. intros [= ?]. lia.
    + destruct Eo as [-> | ->]; [done|]. intros [= ?]. lia.
Qed.

Lemma run_orphanStream key i tracks es : ∀ s,
  orphanStream i tracks s → orphanStream i tracks (run key s es).
Proof.
  induction es as [|e es IH]; intros s Ho; [done|].
  simpl. apply IH. by apply step_orphanStream.
Qed.

Lemma run_orphanContext key c state es : ∀ s,
  orphanContext c state s → orphanContext c state (run key s es).
Proof.
  induction es as [|e es IH]; intros s Ho; [done|].
  simpl. apply IH. by apply step_orphanContext.
Qed.

(** X3.  [disconnect] releases what the refs hold and nothing else.  A
    connect request that gets past the key check and is granted a
    microphone replaces the stream in [streamRef] and the contexts in the
    two context refs; the stream and the contexts that the refs held
    before are then out of reach: whatever happens afterwards, the tracks
    of that stream are never stopped and those contexts are never
    closed. *)
Theorem connect_over_session_orphans_devices (API_KEY : option string)
    (s : State) (n : nat) (connectThrows : option string) (es : list Event) :
  hasKey API_KEY = true →
  let s' := connectToGemini API_KEY (Some n) connectThrows s in
  (∀ i tracks, streamRef s = Some i → streams s !! i = Some tracks →
     streams (run API_KEY s' es) !! i = Some tracks)
  ∧ (∀ c state,
       inputAudioContextRef s = Some c ∨ outputAudioContextRef s = Some c →
       contexts s !! c = Some state →
       contexts (run API_KEY s' es) !! c = Some state).
Proof.
  intros Hk s'.
  assert (Es : streams s' = streams s ++ [replicate n live]
               ∧ streamRef s' = Some (length (streams s))
               ∧ contexts s' = contexts s ++ [running; running]
               ∧ inputAudioContextRef s' = Some (length (contexts s))
               ∧ outputAudioContextRef s' = Some (S (length (contexts s)))).
  { subst s'. unfold connectToGemini. rewrite Hk. simpl.
    destruct connectThrows; simpl; rewrite <- app_assoc; done. }
  destruct Es as (Es & Er & Ec & Ei & Eo).
  split.
  - intros i tracks _ Hl. apply run_orphanStream. split.
    + rewrite Es. by apply lookup_app_l_Some.
    + rewrite Er. intros [= ?]. apply lookup_lt_Some in Hl. lia.
  - intros c state _ Hl. apply run_orphanContext.
    pose proof (lookup_lt_Some _ _ _ Hl). split; [|split].
    + rewrite Ec. by apply lookup_app_l_Some.
    + rewrite Ei. intros [= ?]. lia.
    + rewrite Eo. intros [= ?]. lia.
Qed.

(** A call, a remote close, a second call and its disconnect: the
    microphone track of the first call is still live. *)
Lemma connect_over_session_orphans_devices_witness :
  let key := Some "key" in
  let s := run key dialled [SessionResolved 0 false; Open ""; Close] in
  streams
    (run key (connectToGemini key (Some 1%nat) None s) [DisconnectRequest])
    !! 0%nat
  = Some [live].
Proof.
  intros key s.
  exact (proj1 (connect_over_session_orphans_devices key s 1 None
                  [DisconnectRequest] eq_refl)
           0%nat [live] eq_refl eq_refl).
Defined.

(** ** The log and the playback cursor between disconnects *)

Lemma entry_length who acc : (length (entry who acc) ≤ 1)%nat.
Proof. unfold entry. case_decide; simpl; lia. Qed.

(** X4.  The log is only ever extended, except by [disconnect], which
    empties it: any other event leaves the entries that are there in
    place and in order, and adds at most two at the end. *)
Theorem log_is_append_only (API_KEY : option string) (s : State) (e : Event) :
  e ≠ DisconnectRequest →
  ∃ new, logs (step API_KEY s e) = logs s ++ new ∧ (length new ≤ 2)%nat.
Proof.
  intros Hne.
  assert (Hsame : ∀ s' : State, logs s' = logs s →
            ∃ new, logs s' = logs s ++ new ∧ (length new ≤ 2)%nat).
  { intros s' ->. exists []. rewrite app_nil_r. simpl. split; [done|lia]. }
  destruct e; simpl; try done.
  - unfold connectToGemini.
    destruct (negb (hasKey API_KEY)); simpl.
    { eexists. split; [reflexivity|simpl; lia]. }
    destruct mic as [n|], connectThrows as [err|]; simpl;
      try (by apply Hsame);
      try rewrite <- app_assoc;
      (eexists; split; [reflexivity|simpl; lia]).
  - by apply Hsame.
  - destruct (transportOpened s); [|by apply Hsame].
    unfold onopen. destruct (truthy callerName); simpl;
      rewrite <- app_assoc; (eexists; split; [reflexivity|simpl; lia]).
  - destruct (transportOpened s); [|by apply Hsame].
    destruct (onmessage_transcript now m s) as (-> & _).
    destruct (turnComplete m) eqn:Ht.
    + destruct (handleTurnComplete_flushes m (handleTranscription m s) Ht)
        as (-> & _).
      assert (logs (handleTranscription m s) = logs s) as ->.
      { unfold handleTranscription.
        by destruct (outputTranscription m), (inputTranscription m). }
      eexists. split; [reflexivity|]. rewrite length_app.
      pose proof (entry_length user
        (currentInputTranscriptionRef (handleTranscription m s))).
      pose proof (entry_length agent
        (currentOutputTranscriptionRef (handleTranscription m s))).
      lia.
    + apply Hsame. unfold handleTurnComplete, handleTranscription.
      rewrite Ht. by destruct (outputTranscription m), (inputTranscription m).
  - destruct (transportOpened s); [|by apply Hsame].
    eexists. split; [reflexivity|simpl; lia].
  - destruct (transportOpened s); [|by apply Hsame].
    eexists. split; [reflexivity|simpl; lia].
  - apply Hsame. unfold resolveSession.
    destruct (promises s !! pid) as [[q|t|]|]; try done.
    by destruct (reactions_frame pid sendThrows q
                   (set_promises (<[pid := fulfilled sendThrows]> (promises s))
                      s))
      as (_ & -> & _).
  - apply Hsame. unfold rejectSession.
    destruct (promises s !! pid) as [[q|t|]|]; try done.
    by destruct (rejections_frame q
                   (set_promises (<[pid := rejected]> (promises s)) s))
      as (_ & -> & _).
  - destruct (processors s !! proc) as [p|]; [|by apply Hsame].
    destruct (fires p s); [|by apply Hsame].
    apply Hsame. by destruct (onaudioprocess_silent p blob s).
  - by apply Hsame.
Qed.

Lemma log_is_append_only_witness :
  ∃ new,
    logs (step (Some "key") dialled (Open "Ali")) = logs dialled ++ new
    ∧ (length new ≤ 2)%nat.
Proof. apply log_is_append_only. discriminate. Defined.

Lemma handleAudio_advances now m s :
  nextStartTimeRef s ≤ nextStartTimeRef (handleAudio now m s).1.
Proof.
  unfold handleAudio.
  destruct (base64Audio m) as [[[d|]|]|]; simpl; try lia;
    destruct (outputAudioContextRef s), (outputAnalyserRef s); simpl; lia.
Qed.

(** X5.  The next start time never goes back, except when it is reset: by
    [disconnect] and by a message that carries the interruption flag.
    Every other event leaves it where it was or moves it forward. *)
Theorem next_start_time_only_advances (API_KEY : option string) (s : State)
    (e : Event) :
  e ≠ DisconnectRequest →
  (∀ now m, e = Message now m → interrupted m = false) →
  nextStartTimeRef s ≤ nextStartTimeRef (step API_KEY s e).
Proof.
  intros Hne Hint.
  destruct e; simpl; try done.
  - unfold connectToGemini.
    destruct (negb (hasKey API_KEY)); simpl; [lia|].
    destruct mic, connectThrows; simpl; lia.
  - destruct (transportOpened s); [|lia].
    unfold onopen. destruct (truthy callerName); simpl; lia.
  - destruct (transportOpened s); [|lia].
    specialize (Hint now m eq_refl).
    destruct (transcript_keeps_scheduler m s) as (_ & Ht & _).
    unfold onmessage.
    set (s2 := handleTurnComplete m (handleTranscription m s)) in *.
    pose proof (handleAudio_advances now m s2) as Ha.
    destruct (handleAudio now m s2) as [s3 []]; simpl in *.
    + unfold handleInterruption. rewrite Hint. lia.
    + lia.
  - destruct (transportOpened s); simpl; lia.
  - destruct (transportOpened s); simpl; lia.
  - unfold resolveSession.
    destruct (promises s !! pid) as [[q|t|]|]; try lia.
    destruct (reactions_frame pid sendThrows q
                (set_promises (<[pid := fulfilled sendThrows]> (promises s)) s))
      as (_&_&_&_&_&_&->&_).
    simpl. lia.
  - unfold rejectSession.
    destruct (promises s !! pid) as [[q|t|]|]; try lia.
    destruct (rejections_frame q
                (set_promises (<[pid := rejected]> (promises s)) s))
      as (_&_&_&_&_&_&->&_).
    simpl. lia.
  - destruct (processors s !! proc) as [p|]; [|lia].
    destruct (fires p s); [|lia].
    unfold onaudioprocess.
    destruct (proc_isMuted p); [lia|].
    destruct (sessionPromiseRef s) as [pid|]; [|lia].
    destruct (promises s !! pid) as [[q|t|]|]; simpl; try lia.
    destruct (sendRealtimeInput_frame pid t blob s) as (_&_&_&_&_&_&->&_).
    lia.
Qed.

Lemma next_start_time_only_advances_witness :
  let s := run (Some "key") dialled [SessionResolved 0 false; Open ""] in
  nextStartTimeRef s
  ≤ nextStartTimeRef
      (step (Some "key") s (Message 100 (audioMessage (AudioBuffer 12000)))).
Proof.
  apply next_start_time_only_advances; [discriminate|].
  intros now m [= _ <-]. reflexivity.
Defined.

(** ** Disconnect and the session that is not closed *)

Lemma disconnect_keeps_session_objects s :
  promises (disconnect s) = promises s ∧ sent (disconnect s) = sent s
  ∧ processors (disconnect s) = processors s.
Proof. by rewrite disconnect_fields. Qed.

(** X6.  [disconnect] does not close the session: the promise and the
    transport callbacks stay.  When the transport's open callback arrives
    after a disconnect request (the user hung up while the call was being
    set up), the connection state becomes [connected] although there is no
    session promise and no audio context: every capture callback returns
    without sending, and no message creates or touches a source. *)
Theorem open_after_disconnect_shows_connected (API_KEY : option string)
    (s : State) (callerName : string) :
  transportOpened s = true →
  let s' := run API_KEY s [DisconnectRequest; Open callerName] in
  connectionState s' = connected
  ∧ sessionPromiseRef s' = None
  ∧ inputAudioContextRef s' = None ∧ outputAudioContextRef s' = None
  ∧ (∀ p blob, onaudioprocess p blob s' = s')
  ∧ (∀ now m, nodes (onmessage now m s').1 = nodes s').
Proof.
  intros Ht s'.
  assert (Es : s' = onopen callerName (disconnect s)).
  { subst s'. simpl. unfold transportOpened in *.
    destruct (disconnect_keeps_session_objects s) as (-> & _). by rewrite Ht. }
  assert (Ef : sessionPromiseRef s' = None ∧ outputAudioContextRef s' = None
               ∧ inputAudioContextRef s' = None ∧ connectionState s' = connected
               ∧ sourcesRef s' = ∅).
  { rewrite Es. unfold onopen. rewrite disconnect_fields.
    by destruct (truthy callerName). }
  destruct Ef as (Ep & Eo & Ei & Ec & Eset).
  repeat split; try done.
  - intros p blob. by apply onaudioprocess_no_session.
  - intros now m. unfold onmessage.
    destruct (transcript_keeps_scheduler m s') as (En & _ & Esrc & Ectx & _).
    set (s2 := handleTurnComplete m (handleTranscription m s')) in *.
    unfold handleAudio. rewrite Ectx, Eo.
    destruct (base64Audio m) as [[[d|]|]|]; simpl; try done;
      unfold handleInterruption; destruct (interrupted m); simpl; try done;
      by rewrite Esrc, Eset, elements_empty.
Qed.

Lemma open_after_disconnect_shows_connected_witness :
  let s := run (Some "key") dialled [DisconnectRequest; Open ""] in
  connectionState s = connected ∧ sessionPromiseRef s = None
  ∧ contexts s = [closed; closed].
Proof.
  destruct (open_after_disconnect_shows_connected (Some "key") dialled ""
              eq_refl) as (Hc & Hp & _).
  split; [exact Hc|]. split; [exact Hp|reflexivity].
Defined.

(** X7.  [disconnect] stops new sends, not the ones already registered.
    After it every capture callback returns without sending or queueing.
    But the chunks that were captured while the session promise was
    pending stay registered on the promise, which [disconnect] only
    forgets: if the promise is fulfilled afterwards, all of them are
    sent. *)
Theorem disconnect_keeps_registered_sends (s : State) (pid : nat)
    (q : list Blob) :
  promises s !! pid = Some (pending q) →
  (∀ p blob, onaudioprocess p blob (disconnect s) = disconnect s)
  ∧ (∀ sendThrows,
       sent (resolveSession pid sendThrows (disconnect s))
       = sent s ++ ((fun blob => (pid, blob)) <$> q)).
Proof.
  intros Hp. split.
  - intros p blob. apply onaudioprocess_no_session.
    by rewrite disconnect_fields.
  - intros t. unfold resolveSession. rewrite disconnect_fields.
    cbn [promises]. rewrite Hp, sent_reactions. reflexivity.
Qed.

Lemma disconnect_keeps_registered_sends_witness :
  let p := {| proc_context := 0; proc_isMuted := false |} in
  let s := onaudioprocess p 2%nat (onaudioprocess p 1%nat dialled) in
  sent (resolveSession 0 false (disconnect s)) = [(0%nat, 1%nat); (0%nat, 2%nat)].
Proof.
  intros p s.
  exact (proj2 (disconnect_keeps_registered_sends s 0 [1%nat; 2%nat] eq_refl)
           false).
Defined.

(** ** Audio without an output context *)

(** X8.  Without an output context (audio initialisation failed, or the
    message arrives after [disconnect]) the audio of a message is dropped
    before it is decoded: no source is created, the next start time and the
    set of sources stay as they are, and a fragment that would not decode
    raises nothing.  The handler is left by an exception only for a model
    turn without parts. *)
Theorem audio_dropped_without_output_context (now : N)
    (m : LiveServerMessage) (s : State) :
  outputAudioContextRef s = None →
  interrupted m = false →
  let r := onmessage now m s in
  nodes r.1 = nodes s
  ∧ nextStartTimeRef r.1 = nextStartTimeRef s
  ∧ sourcesRef r.1 = sourcesRef s
  ∧ (r.2 = Threw ↔ base64Audio m = None).
Proof.
  intros Ho Hi r. subst r. unfold onmessage.
  destruct (transcript_keeps_scheduler m s) as (En & Et & Es & Ec & _).
  set (s2 := handleTurnComplete m (handleTranscription m s)) in *.
  unfold handleAudio. rewrite Ec, Ho.
  unfold handleInterruption. rewrite Hi.
  destruct (base64Audio m) as [[[d|]|]|]; simpl;
    repeat split; try done; try congruence.
Qed.

Lemma audio_dropped_without_output_context_witness :
  let s := run (Some "key") dialled [DisconnectRequest] in
  let r := onmessage 100 (audioMessage DecodeError) s in
  nodes r.1 = [] ∧ nextStartTimeRef r.1 = 0 ∧ r.2 = Returned.
Proof.
  intros s r.
  destruct (audio_dropped_without_output_context 100
              (audioMessage DecodeError) s eq_refl eq_refl)
    as (Hn & Ht & _ & _).
  split; [exact Hn|]. split; [exact Ht|reflexivity].
Defined.

(** X10.  A fragment that arrives in the same message as the interruption
    flag is scheduled first and cancelled at once: its source is created,
    started at the later of the clock and the next start time, and
    stopped; the set of sources is empty and the next start time is zero
    afterwards. *)
Theorem fragment_with_interruption_is_cancelled (now : N)
    (m : LiveServerMessage) (s : State) (d : N) :
  playable s →
  decodedFrames m = Some d →
  interrupted m = true →
  let r := onmessage now m s in
  r.2 = Returned
  ∧ length (nodes r.1) = S (length (nodes s))
  ∧ nodes r.1 !! length (nodes s)
    = Some {| when := N.max now (nextStartTimeRef s); duration := d;
              stopped := true |}
  ∧ sourcesRef r.1 = ∅
  ∧ nextStartTimeRef r.1 = 0.
Proof.
  intros [[c Hc] [a Ha]] Hd Hi r. subst r.
  unfold decodedFrames in Hd. unfold onmessage.
  destruct (transcript_keeps_scheduler m s) as (Hn & Ht & Hs & Hc' & Ha').
  set (s2 := handleTurnComplete m (handleTranscription m s)) in *.
  unfold handleAudio.
  destruct (base64Audio m) as [[[d'|]|]|]; try discriminate.
  injection Hd as ->.
  rewrite Hc', Ha', Hc, Ha. cbn [fst snd].
  match goal with
  | |- context [handleInterruption m ?st] => set (s3 := st)
  end.
  assert (E3 : nodes s3
               = nodes s
                   ++ [{| when := N.max now (nextStartTimeRef s);
                          duration := d; stopped := false |}]
               ∧ length (nodes s) ∈ sourcesRef s3).
  { subst s3. simpl. rewrite Hn, Ht, (N.max_comm now). split; [done|].
    apply elem_of_union. right. by apply elem_of_singleton. }
  destruct E3 as (E3 & Hin).
  destruct (handleInterruption_resets m s3 Hi) as (Hstop & _ & Hset & Hnext).
  split; [done|]. split; [|split; [|done]].
  - assert (Hlen : ∀ (l : list nat) ns,
              length (foldr (fun source ns => alter stop source ns) ns l)
              = length ns).
    { induction l as [|x l IH]; intros ns; simpl; [done|].
      by rewrite length_alter. }
    assert (nodes (handleInterruption m s3)
            = foldr (fun source ns => alter stop source ns) (nodes s3)
                (elements (sourcesRef s3))) as ->.
    { unfold handleInterruption. by rewrite Hi. }
    rewrite Hlen, E3, length_app. simpl. lia.
  - apply (Hstop _
             {| when := N.max now (nextStartTimeRef s); duration := d;
                stopped := false |} Hin).
    rewrite E3, lookup_app_r by lia. by rewrite Nat.sub_diag.
Qed.

Lemma fragment_with_interruption_is_cancelled_witness :
  let m :=
    {| outputTranscription := None; inputTranscription := None;
       turnComplete := false;
       modelTurn := Some {| parts := Some [Some (AudioBuffer 12000)] |};
       interrupted := true |} in
  let r := onmessage 100 m dialled in
  nodes r.1 !! 0%nat
  = Some {| when := 100; duration := 12000; stopped := true |}
  ∧ nextStartTimeRef r.1 = 0.
Proof.
  intros m r.
  assert (Hp : playable dialled) by (split; eexists; reflexivity).
  destruct (fragment_with_interruption_is_cancelled 100 m dialled 12000 Hp
              eq_refl eq_refl) as (_ & _ & Hn & _ & Ht).
  split; [exact Hn|exact Ht].
Defined.

(** ** A turn of streamed transcription *)

Lemma append_empty_r (t : string) : t +:+ "" = t.
Proof.
  induction t as [|c t IH]; [done|].
  change (String c (t +:+ "") = String c t). by rewrite IH.
Qed.

Lemma append_assoc (a b c : string) : (a +:+ b) +:+ c = a +:+ (b +:+ c).
Proof.
  induction a as [|x a IH]; [done|].
  change (String x ((a +:+ b) +:+ c) = String x (a +:+ (b +:+ c))).
  by rewrite IH.
Qed.

Lemma outboundText_snoc ms m :
  outboundText (ms ++ [m])
  = outboundText ms +:+ default "" (outputTranscription m).
Proof.
  induction ms as [|m0 ms IH]; simpl.
  - by rewrite append_empty_r.
  - by rewrite IH, append_assoc.
Qed.

Lemma inboundText_snoc ms m :
  inboundText (ms ++ [m])
  = inboundText ms
      +:+ match outputTranscription m with
          | Some _ => ""
          | None => default "" (inputTranscription m)
          end.
Proof.
  induction ms as [|m0 ms IH]; simpl.
  - by rewrite append_empty_r.
  - by rewrite IH, append_assoc.
Qed.

Lemma handleTranscription_appends m s :
  currentOutputTranscriptionRef (handleTranscription m s)
  = currentOutputTranscriptionRef s +:+ default "" (outputTranscription m)
  ∧ currentInputTranscriptionRef (handleTranscription m s)
    = currentInputTranscriptionRef s
        +:+ match outputTranscription m with
            | Some _ => ""
            | None => default "" (inputTranscription m)
            end
  ∧ logs (handleTranscription m s) = logs s.
Proof.
  unfold handleTranscription.
  destruct (outputTranscription m), (inputTranscription m); simpl;
    by rewrite ?append_empty_r.
Qed.

Lemma handleTurnComplete_idle m s :
  turnComplete m = false → handleTurnComplete m s = s.
Proof. intros H. unfold handleTurnComplete. by rewrite H. Qed.

Lemma receive_accumulates arrivals : ∀ s,
  Forall (fun a => turnComplete a.2 = false) arrivals →
  currentOutputTranscriptionRef (receive s arrivals)
  = currentOutputTranscriptionRef s +:+ outboundText (snd <$> arrivals)
  ∧ currentInputTranscriptionRef (receive s arrivals)
    = currentInputTranscriptionRef s +:+ inboundText (snd <$> arrivals)
  ∧ logs (receive s arrivals) = logs s.
Proof.
  induction arrivals as [|a arrivals IH] using rev_ind; intros s Hall.
  - simpl. by rewrite !append_empty_r.
  - apply Forall_app in Hall as [Hall Ha].
    apply Forall_inv in Ha. cbn beta in Ha.
    destruct (IH s Hall) as (Eo & Ei & El).
    rewrite receive_snoc, fmap_app. cbn [fmap list_fmap].
    rewrite outboundText_snoc, inboundText_snoc.
    destruct (onmessage_transcript a.1 a.2 (receive s arrivals))
      as (Hl & Hi & Ho).
    rewrite (handleTurnComplete_idle _ _ Ha) in Hl, Hi, Ho.
    destruct (handleTranscription_appends a.2 (receive s arrivals))
      as (Ao & Ai & Al).
    rewrite Hl, Hi, Ho, Ao, Ai, Al, Eo, Ei, El, !append_assoc.
    repeat split; reflexivity.
Qed.

(** X9.  A turn that is streamed in pieces gives one entry per speaker.
    Messages that do not complete the turn add nothing to the log; the
    message that completes it adds one caller entry and one agent entry
    (each only if its text is not empty) whose texts are what the
    accumulators held before the turn followed by the fragments of the
    turn in order of arrival, the last message's included; of a message
    that carries both fragments only the outbound one counts. *)
Theorem streamed_turn_is_logged_once (s : State)
    (arrivals : list (N * LiveServerMessage)) (now : N)
    (m : LiveServerMessage) :
  Forall (fun a => turnComplete a.2 = false) arrivals →
  turnComplete m = true →
  logs (receive s arrivals) = logs s
  ∧ logs (receive s (arrivals ++ [(now, m)]))
    = logs s
        ++ entry user
             (currentInputTranscriptionRef s
                +:+ inboundText ((snd <$> arrivals) ++ [m]))
        ++ entry agent
             (currentOutputTranscriptionRef s
                +:+ outboundText ((snd <$> arrivals) ++ [m]))
  ∧ currentInputTranscriptionRef (receive s (arrivals ++ [(now, m)])) = ""
  ∧ currentOutputTranscriptionRef (receive s (arrivals ++ [(now, m)])) = "".
Proof.
  intros Hall Ht.
  destruct (receive_accumulates arrivals s Hall) as (Eo & Ei & El).
  split; [done|].
  rewrite receive_snoc. cbn [fst snd].
  destruct (onmessage_transcript now m (receive s arrivals)) as (Hl & Hi & Ho).
  destruct (handleTurnComplete_flushes m
              (handleTranscription m (receive s arrivals)) Ht)
    as (Fl & Fi & Fo).
  destruct (handleTranscription_appends m (receive s arrivals))
    as (Ao & Ai & Al).
  rewrite Hl, Hi, Ho, Fl, Fi, Fo, Ao, Ai, Al, Eo, Ei, El.
  rewrite outboundText_snoc, inboundText_snoc, !append_assoc.
  repeat split; reflexivity.
Qed.

Lemma streamed_turn_is_logged_once_witness :
  let said t :=
    (0, {| outputTranscription := None; inputTranscription := Some t;
           turnComplete := false; modelTurn := None;
           interrupted := false |}) in
  let done :=
    {| outputTranscription := None; inputTranscription := None;
       turnComplete := true; modelTurn := None; interrupted := false |} in
  logs (receive dialled ([said "mer"; said "ha"; said "ba"] ++ [(0, done)]))
  = [{| sender := user; text := "merhaba" |}].
Proof.
  intros said done.
  destruct (streamed_turn_is_logged_once dialled
              [said "mer"; said "ha"; said "ba"] 0 done)
    as (_ & H & _); [| reflexivity | exact H].
  repeat constructor.
Defined.

(** ** The mute gate in the component as it is *)

(** [initializeAudio] with a microphone, field by field. *)
Lemma initializeAudio_fields (n : nat) (s : State) :
  initializeAudio (Some n) s
  = MkState (connectionState s) (logs s) (isMuted s)
      (Some (length (contexts s))) (Some (S (length (contexts s))))
      (Some (length (contexts s))) (Some (S (length (contexts s))))
      (nextStartTimeRef s) (sourcesRef s) (sessionPromiseRef s)
      (currentInputTranscriptionRef s) (currentOutputTranscriptionRef s)
      (Some (length (streams s))) (streams s ++ [replicate n live])
      ((contexts s ++ [running]) ++ [running])
      (processors s
         ++ [{| proc_context := length (contexts s);
                proc_isMuted := isMuted s |}])
      (promises s) (nodes s) (sent s) (console s).
Proof. destruct s. reflexivity. Qed.

Lemma step_unmuted key s e : keepsMute e → unmuted s → unmuted (step key s e).
Proof.
  intros Hk [Hm Hp].
  assert (Hsame : ∀ s' : State, isMuted s' = isMuted s →
            processors s' = processors s → unmuted s').
  { intros s' E1 E2. unfold unmuted. by rewrite E1, E2. }
  destruct e; simpl; try done.
  - unfold connectToGemini.
    destruct (negb (hasKey key)); [by apply Hsame|].
    destruct mic as [n|].
    + rewrite initializeAudio_fields.
      assert (Forall (fun p => proc_isMuted p = false)
                (processors s
                   ++ [{| proc_context := length (contexts s);
                          proc_isMuted := isMuted s |}])).
      { apply Forall_app. split; [done|]. by apply Forall_singleton. }
      by destruct connectThrows as [err|]; split.
    + by destruct connectThrows as [err|]; apply Hsame.
  - rewrite disconnect_fields. by apply Hsame.
  - destruct (transportOpened s); [|done].
    unfold onopen. destruct (truthy callerName); by apply Hsame.
  - destruct (transportOpened s); [|done].
    destruct (onmessage_keeps_devices now m s) as (_&_&_&_&_&?&?).
    by apply Hsame.
  - by destruct (transportOpened s).
  - by destruct (transportOpened s).
  - unfold resolveSession.
    destruct (promises s !! pid) as [[q|t|]|]; try done.
    destruct (reactions_frame pid sendThrows q
                (set_promises (<[pid := fulfilled sendThrows]> (promises s)) s))
      as (_&_&?&_&_&_&_&_&_&_&_&_&_&_&?&_).
    by apply Hsame.
  - unfold rejectSession.
    destruct (promises s !! pid) as [[q|t|]|]; try done.
    destruct (rejections_frame q
                (set_promises (<[pid := rejected]> (promises s)) s))
      as (_&_&?&_&_&_&_&_&_&_&_&_&_&_&?&_).
    by apply Hsame.
  - destruct (processors s !! proc) as [p|]; [|done].
    destruct (fires p s); [|done].
    unfold onaudioprocess.
    destruct (proc_isMuted p); [done|].
    destruct (sessionPromiseRef s) as [pid|]; [|done].
    destruct (promises s !! pid) as [[q|t|]|]; try done.
    destruct (sendRealtimeInput_frame pid t blob s)
      as (_&_&?&_&_&_&_&_&_&_&_&_&_&_&?&_).
    by apply Hsame.
Qed.

(** X11.  The component never calls [setIsMuted].  As long as nothing
    else does, [isMuted] is false in every state that is reached from the
    first render, and so is the value that each registered capture
    callback holds: the mute gate of [onaudioprocess] never holds a chunk
    back. *)
Theorem mute_gate_never_closes (API_KEY : option string) (es : list Event) :
  Forall keepsMute es →
  let s := run API_KEY initial es in
  isMuted s = false
  ∧ (∀ proc p, processors s !! proc = Some p → proc_isMuted p = false).
Proof.
  intros Hall s.
  assert (H : ∀ st, unmuted st → unmuted (run API_KEY st es)).
  { induction Hall as [|e es He Hes IH]; intros st Hu; [done|].
    simpl. apply IH. by apply step_unmuted. }
  destruct (H initial) as [Hm Hp]; [by split|].
  split; [done|]. intros proc p Hl.
  rewrite Forall_lookup in Hp. by apply (Hp proc).
Qed.

Lemma mute_gate_never_closes_witness :
  let s :=
    run (Some "key") initial
      [ConnectRequest (Some 1%nat) None; SessionResolved 0 false; Open "";
       Close; ConnectRequest (Some 1%nat) None] in
  isMuted s = false
  ∧ (∀ proc p, processors s !! proc = Some p → proc_isMuted p = false).
Proof.
  apply (mute_gate_never_closes (Some "key")). repeat constructor.
Defined.

(** ** Connect requests that fail half way *)

(** X15.  A connect request that has the key and the microphone but whose
    [ai.live.connect] throws ends in [error] with one system entry that
    carries the text of the exception.  It releases nothing of what it has
    just acquired: the new stream is live and in [streamRef], the two new
    contexts run, the capture callback is registered; and it leaves
    [sessionPromiseRef] as it found it. *)
Theorem connect_that_throws_keeps_devices (API_KEY : option string)
    (n : nat) (err : string) (s : State) :
  hasKey API_KEY = true →
  let s' := connectToGemini API_KEY (Some n) (Some err) s in
  connectionState s' = error
  ∧ logs s'
    = logs s
        ++ [{| sender := system; text := "Bağlantı başlatılamadı: " +:+ err |}]
  ∧ sessionPromiseRef s' = sessionPromiseRef s
  ∧ promises s' = promises s
  ∧ streamRef s' = Some (length (streams s))
  ∧ streams s' !! length (streams s) = Some (replicate n live)
  ∧ contexts s' !! length (contexts s) = Some running
  ∧ contexts s' !! S (length (contexts s)) = Some running
  ∧ length (processors s') = S (length (processors s)).
Proof.
  intros Hk s'. subst s'. unfold connectToGemini. rewrite Hk.
  cbn [negb]. rewrite initializeAudio_fields. cbn.
  repeat split.
  - rewrite lookup_app_r by lia. by rewrite Nat.sub_diag.
  - rewrite lookup_app_l by (rewrite length_app; simpl; lia).
    rewrite lookup_app_r by lia. by rewrite Nat.sub_diag.
  - rewrite lookup_app_r by (rewrite length_app; simpl; lia).
    rewrite length_app. simpl.
    by replace (S (length (contexts s)) - (length (contexts s) + 1))%nat
      with 0%nat by lia.
  - rewrite length_app. simpl. lia.
Qed.

Lemma connect_that_throws_keeps_devices_witness :
  let s := connectToGemini (Some "key") (Some 1%nat) (Some "offline") initial in
  connectionState s = error
  ∧ logs s
    = [{| sender := system; text := "Bağlantı başlatılamadı: offline" |}]
  ∧ streams s !! 0%nat = Some [live].
Proof.
  destruct (connect_that_throws_keeps_devices (Some "key") 1 "offline" initial
              eq_refl) as (Hc & Hl & _ & _ & _ & Hs & _).
  split; [exact Hc|]. split; [exact Hl|exact Hs].
Defined.

(** X16.  A failed microphone acquisition does not end the connect
    request.  After the error entry the transport is opened all the same
    and its promise is put in [sessionPromiseRef]; when the transport then
    opens, the connection state goes from [error] to [connected], with no
    stream, no context and no capture callback added for this call. *)
Theorem call_goes_on_after_microphone_failure (API_KEY : option string)
    (s : State) (callerName : string) :
  hasKey API_KEY = true →
  let s1 := connectToGemini API_KEY None None s in
  let s2 := step API_KEY s1 (Open callerName) in
  (connectionState s1 = error
   ∧ sessionPromiseRef s1 = Some (length (promises s))
   ∧ promises s1 = promises s ++ [pending []])
  ∧ (connectionState s2 = connected
     ∧ streams s2 = streams s ∧ contexts s2 = contexts s
     ∧ processors s2 = processors s
     ∧ outputAudioContextRef s2 = outputAudioContextRef s
     ∧ ∃ greeting,
         logs s2
         = logs s
             ++ [{| sender := system;
                    text :=
                      "Mikrofon hatası. Lütfen izinleri kontrol edin." |};
                 {| sender := system;
                    text := "Hızlı Bağlantı Kuruldu (Ultra Low Latency)." |};
                 {| sender := agent; text := greeting |}]).
Proof.
  intros Hk s1 s2.
  assert (E1 : s1
    = set_sessionPromiseRef (Some (length (promises s)))
        (set_promises (promises s ++ [pending []])
           (addLog system "Mikrofon hatası. Lütfen izinleri kontrol edin."
              (set_connectionState error
                 (log_console "Audio initialization failed"
                    (set_connectionState connecting s)))))).
  { subst s1. unfold connectToGemini. by rewrite Hk. }
  assert (E2 : s2 = onopen callerName s1).
  { subst s2. simpl. unfold transportOpened. rewrite E1. simpl.
    by destruct (promises s). }
  split; [by rewrite E1|].
  rewrite E2, E1. unfold onopen.
  destruct (truthy callerName); simpl;
    repeat split; try done; rewrite <- !app_assoc; eexists; reflexivity.
Qed.

Lemma call_goes_on_after_microphone_failure_witness :
  let s :=
    run (Some "key") initial [ConnectRequest None None; Open "Ali"] in
  connectionState s = connected ∧ streams s = [] ∧ processors s = [].
Proof.
  destruct (call_goes_on_after_microphone_failure (Some "key") initial "Ali"
              eq_refl) as (_ & Hc & Hs & _ & Hp & _).
  split; [exact Hc|]. split; [exact Hs|exact Hp].
Defined.

(** ** The instruction sent with the call *)

(** X14.  Of the SIP settings only the server reaches the system
    instruction: two configurations with the same server (whatever their
    user names, ports and passwords) give the same instruction; with an
    empty server the instruction is the base instruction followed by the
    task block and nothing else. *)
Theorem instruction_uses_sip_server_only (base callerName callReason : string)
    (cfg cfg' : SipConfig) :
  server cfg = server cfg' →
  finalSystemInstruction base callerName callReason cfg
  = finalSystemInstruction base callerName callReason cfg'
  ∧ (server cfg = "" →
     finalSystemInstruction base callerName callReason cfg
     = base +:+ taskInstruction callerName callReason).
Proof.
  intros Hs. unfold finalSystemInstruction, sipContext. rewrite Hs.
  split; [done|]. intros ->. simpl. by rewrite append_empty_r.
Qed.

Lemma instruction_uses_sip_server_only_witness :
  finalSystemInstruction "Sen" "Ali" ""
    {| server := "sip.example"; port := "5060"; username := "1001";
       password := "secret" |}
  = finalSystemInstruction "Sen" "Ali" ""
      {| server := "sip.example"; port := "5061"; username := "";
         password := "" |}.
Proof.
  exact (proj1 (instruction_uses_sip_server_only "Sen" "Ali" ""
    {| server := "sip.example"; port := "5060"; username := "1001";
       password := "secret" |}
    {| server := "sip.example"; port := "5061"; username := "";
       password := "" |} eq_refl)).
Defined.

(** ** Voice selection and the cloning mock *)

Lemma act_voiceSettled st a : voiceSettled st → voiceSettled (Voice.act st a).
Proof.
  destruct st as [sel phase has tm]. unfold voiceSettled. simpl.
  intros [Hph Hsel]. destruct a as [card| |now|k now]; simpl.
  - destruct card as [|[|[|[|card]]]]; simpl; try done;
      (split; [done|]; left; repeat constructor).
  - destruct has; simpl; [|done]. split; [done|]. by right.
  - destruct has, phase; simpl; try done.
    destruct Hph as [_ ->]. split; [split; [done|by eexists]|].
    destruct Hsel as [?|[_ ?]]; [by left|done].
  - destruct phase; simpl in *.
    + destruct Hph as [Hh ->]. by destruct k.
    + destruct Hph as [Hh [due ->]]. destruct k as [|k]; simpl.
      * destruct (due <=? now); simpl.
        -- split; [split; [done|by eexists]|].
           destruct Hsel as [?|[_ ?]]; [by left|congruence].
        -- split; [split; [done|by eexists]|done].
      * split; [split; [done|by eexists]|done].
    + destruct Hph as [Hh [due ->]]. destruct k as [|k]; simpl.
      * destruct (due <=? now); simpl.
        -- split; [done|]. by right.
        -- split; [split; [done|by eexists]|done].
      * split; [split; [done|by eexists]|done].
    + destruct Hph as [Hh ->]. by destruct k.
Qed.

Lemma listed_voice (v : Voice.VoiceOption) :
  v ∈ Voice.id <$> Voice.VOICES →
  Voice.apiVoiceName v = v ∧ v ≠ Voice.Cloned.
Proof.
  simpl. intros H.
  repeat (apply elem_of_cons in H as [->|H]; [done|]).
  by apply not_elem_of_nil in H.
Qed.

(** X12.  Whatever the user clicks in the voice settings and whenever the
    timers of the cloning mock run, the voice name that a connect request
    would send is one of the four voices on the cards (Kore, Zephyr, Puck,
    Fenrir), never [Cloned] and never [Charon]; the cloned voice is
    selected only once cloning has succeeded; there is a cloned voice
    exactly when the cloning state is [success]; and at most one timer is
    pending. *)
Theorem api_voice_is_a_listed_voice (actions : list Voice.Action) :
  let st := foldl Voice.act Voice.initialSettings actions in
  Voice.apiVoiceName (Voice.selectedVoice st) ∈ Voice.id <$> Voice.VOICES
  ∧ (Voice.selectedVoice st = Voice.Cloned →
     Voice.cloningState st = Voice.success)
  ∧ (Voice.hasClonedVoice st = true ↔ Voice.cloningState st = Voice.success)
  ∧ (length (Voice.timers st) ≤ 1)%nat.
Proof.
  intros st.
  assert (H : ∀ st0, voiceSettled st0 → voiceSettled (foldl Voice.act st0 actions)).
  { induction actions as [|a actions IH]; intros st0 Hs; [done|].
    simpl. apply IH. by apply act_voiceSettled. }
  assert (Hi : voiceSettled Voice.initialSettings).
  { split; [done|]. left. simpl. apply list_elem_of_here. }
  specialize (H _ Hi). fold st in H. destruct H as [Hph Hsel].
  assert (Hapi : Voice.apiVoiceName (Voice.selectedVoice st)
                 ∈ Voice.id <$> Voice.VOICES).
  { destruct Hsel as [Hin|[-> _]].
    - by destruct (listed_voice _ Hin) as [-> ?].
    - simpl. repeat constructor. }
  assert (Hcl : Voice.selectedVoice st = Voice.Cloned →
                Voice.hasClonedVoice st = true).
  { intros Hc. destruct Hsel as [Hin|[_ ?]]; [|done].
    by destruct (listed_voice _ Hin) as [_ ?]. }
  split; [done|].
  destruct (Voice.cloningState st) eqn:Hp.
  - destruct Hph as [Hh Ht]. rewrite Hh, Ht in *. simpl.
    repeat split; try done; try lia. intros Hc. by specialize (Hcl Hc).
  - destruct Hph as [Hh [due Ht]]. rewrite Hh, Ht in *. simpl.
    repeat split; try done; try lia. intros Hc. by specialize (Hcl Hc).
  - destruct Hph as [Hh [due Ht]]. rewrite Hh, Ht in *. simpl.
    repeat split; try done; try lia. intros Hc. by specialize (Hcl Hc).
  - destruct Hph as [Hh Ht]. rewrite Hh, Ht in *. simpl.
    repeat split; try done; lia.
Qed.

Lemma picks_keep_cloning picks : ∀ st,
  Forall Voice.isPick picks →
  Voice.cloningState (foldl Voice.act st picks) = Voice.cloningState st
  ∧ Voice.hasClonedVoice (foldl Voice.act st picks) = Voice.hasClonedVoice st
  ∧ Voice.timers (foldl Voice.act st picks) = Voice.timers st.
Proof.
  induction picks as [|a picks IH]; intros st Hall; [done|].
  apply Forall_cons in Hall as [Ha Hall]. simpl.
  destruct (IH (Voice.act st a) Hall) as (-> & -> & ->).
  destruct st as [sel phase has tm].
  destruct a as [card| | |]; simpl in *; try done.
  - by destruct card as [|[|[|[|card]]]].
  - by destruct has.
Qed.

(** X13.  The cloning mock runs to its end whatever is clicked meanwhile.
    From a state with no cloned voice and nothing in progress, a click on
    the cloning button at [t], the first timer running at least 3000 ms
    later and the second at least 2000 ms after the first, with any clicks
    on voice buttons in between, end with the cloning state [success], a
    cloned voice, no timer pending, and [Cloned] selected: a voice picked
    while cloning was in progress is replaced. *)
Theorem cloning_completes_and_selects_clone (st : Voice.Settings)
    (picks1 picks2 : list Voice.Action) (t t1 t2 : N) :
  Voice.hasClonedVoice st = false →
  Voice.cloningState st = Voice.idle →
  Voice.timers st = [] →
  Forall Voice.isPick picks1 →
  Forall Voice.isPick picks2 →
  t + 3000 ≤ t1 →
  t1 + 2000 ≤ t2 →
  let final :=
    foldl Voice.act st
      ([Voice.StartCloning t] ++ picks1 ++ [Voice.TimerFires 0 t1]
         ++ picks2 ++ [Voice.TimerFires 0 t2]) in
  Voice.cloningState final = Voice.success
  ∧ Voice.hasClonedVoice final = true
  ∧ Voice.selectedVoice final = Voice.Cloned
  ∧ Voice.timers final = [].
Proof.
  intros Hh Hp Ht H1 H2 Hd1 Hd2 final.
  set (s1 := Voice.act st (Voice.StartCloning t)).
  set (s2 := foldl Voice.act s1 picks1).
  set (s3 := Voice.act s2 (Voice.TimerFires 0 t1)).
  set (s4 := foldl Voice.act s3 picks2).
  assert (Ef : final = Voice.act s4 (Voice.TimerFires 0 t2)).
  { subst final. by rewrite !foldl_app. }
  assert (E1 : Voice.cloningState s1 = Voice.recording
               ∧ Voice.hasClonedVoice s1 = false
               ∧ Voice.timers s1 = [(t + 3000, Voice.afterRecording)]).
  { subst s1. simpl. rewrite Hh, Hp. simpl. by rewrite Ht. }
  destruct E1 as (E1 & E2 & E3).
  destruct (picks_keep_cloning picks1 s1 H1) as (P1 & P2 & P3).
  fold s2 in P1, P2, P3. rewrite E1 in P1. rewrite E2 in P2.
  rewrite E3 in P3.
  assert (E3' : Voice.cloningState s3 = Voice.processing
                ∧ Voice.hasClonedVoice s3 = false
                ∧ Voice.timers s3 = [(t1 + 2000, Voice.afterProcessing)]).
  { subst s3. simpl. rewrite P3. simpl.
    destruct (N.leb_spec (t + 3000) t1) as [_|?]; [|lia]. simpl.
    by rewrite P2. }
  destruct E3' as (F1 & F2 & F3).
  destruct (picks_keep_cloning picks2 s3 H2) as (Q1 & Q2 & Q3).
  fold s4 in Q1, Q2, Q3. rewrite F1 in Q1. rewrite F2 in Q2.
  rewrite F3 in Q3.
  rewrite Ef. simpl. rewrite Q3. simpl.
  destruct (N.leb_spec (t1 + 2000) t2) as [_|?]; [|lia]. done.
Qed.

Lemma cloning_completes_and_selects_clone_witness :
  let final :=
    foldl Voice.act Voice.initialSettings
      ([Voice.StartCloning 0] ++ [Voice.PickVoice 2]
         ++ [Voice.TimerFires 0 3000] ++ [Voice.PickVoice 3; Voice.PickCloned]
         ++ [Voice.TimerFires 0 5000]) in
  Voice.cloningState final = Voice.success
  ∧ Voice.hasClonedVoice final = true
  ∧ Voice.selectedVoice final = Voice.Cloned
  ∧ Voice.timers final = [].
Proof.
  apply (cloning_completes_and_selects_clone Voice.initialSettings
           [Voice.PickVoice 2] [Voice.PickVoice 3; Voice.PickCloned]
           0 3000 5000);
    try reflexivity; try (repeat constructor); try (vm_compute; discriminate).
Defined.

(** ** Capture on an open session *)

(** X17.  With a fulfilled session promise in [sessionPromiseRef] an
    unmuted capture callback hands every chunk to [sendRealtimeInput], one
    call per chunk, in the order of capture; a send that throws is caught
    and does not keep the chunks after it from being sent. *)
Theorem capture_sends_every_chunk_in_order (s : State) (p : ScriptProcessor)
    (pid : nat) (sendThrows : bool) (blobs : list Blob) :
  proc_isMuted p = false →
  sessionPromiseRef s = Some pid →
  promises s !! pid = Some (fulfilled sendThrows) →
  sent (foldl (fun st blob => onaudioprocess p blob st) s blobs)
  = sent s ++ ((fun blob => (pid, blob)) <$> blobs).
Proof.
  intros Hm. revert s.
  induction blobs as [|b blobs IH]; intros s Hr Hp; simpl.
  - by rewrite app_nil_r.
  - assert (E : onaudioprocess p b s = sendRealtimeInput pid sendThrows b s).
    { unfold onaudioprocess. by rewrite Hm, Hr, Hp. }
    destruct (sendRealtimeInput_frame pid sendThrows b s)
      as (_&_&_&_&_&_&_&_&Er&_&_&_&_&_&_&Ep&_).
    rewrite E, IH.
    + unfold sendRealtimeInput. destruct sendThrows; simpl;
        by rewrite <- app_assoc.
    + by rewrite Er.
    + by rewrite Ep.
Qed.

Lemma capture_sends_every_chunk_in_order_witness :
  let s := run (Some "key") dialled [SessionResolved 0 true; Open ""] in
  let p := {| proc_context := 0; proc_isMuted := false |} in
  sent (foldl (fun st blob => onaudioprocess p blob st) s [1; 2; 3]%nat)
  = [(0, 1); (0, 2); (0, 3)]%nat.
Proof.
  intros s p.
  exact (capture_sends_every_chunk_in_order s p 0 true [1; 2; 3]%nat
           eq_refl eq_refl eq_refl).
Defined.
